(** * YelpCamp: campgrounds, reviews and the validation / error pipeline

    A shallow embedding of the request pipeline of the YelpCamp
    application: the two routers ([routes/campgrounds.js],
    [routes/reviews.js]) and the two variants of [app.js] (the one that
    declares every route on [app], and the one that mounts the routers).

    - The document store is a pair of finite maps keyed by identifier.
    - An [async] function body is a computation in a state-and-exception
      monad over the store; [await]ing a store operation may reject.
    - Express is modelled by an ordered route table whose entries carry a
      list of stages, a dispatcher and the error-handling middleware. *)

From Stdlib Require Import ZArith.
From stdpp Require Import gmap strings list fin_maps.

Open Scope string_scope.
Open Scope Z_scope.

(** ** JavaScript error values *)

(** The two properties of an error object the application reads.  Either
    may be [undefined]. *)
Record JsError := mkError {
  message : option string;
  statusCode : option Z
}.

Global Instance JsError_eq_dec : EqDecision JsError.
Proof. solve_decision. Defined.

(** Modelled from the spec: [utils/ExpressError.js] is absent.  Section 4.1
    describes it as a single concrete kind of value with two fields, a
    message and an HTTP status code, set by the constructor
    [new ExpressError(message, statusCode)]. *)
Definition ExpressError (msg : string) (code : Z) : JsError :=
  {| message := Some msg; statusCode := Some code |}.

(** [TypeError] raised by the runtime: it has a message and no
    [statusCode]. *)
Definition TypeError (msg : string) : JsError :=
  {| message := Some msg; statusCode := None |}.

(** The rejection of a store operation (connection lost, write refused):
    an error with a message and no [statusCode]. *)
Definition StoreError : JsError :=
  {| message := Some "store operation failed"; statusCode := None |}.

(** ** Documents and the store *)

(** Identifiers are opaque and store-assigned; they travel in URLs as one
    path segment.  Only well-formed identifiers are modelled. *)
Abbreviation Id := string.

(** The free-form fields of a document (title, location, body, ...),
    as they arrive from the form-encoded payload. *)
Abbreviation Fields := (gmap string string).

Record CampgroundDoc := mkCampground {
  c_id : Id;
  c_fields : Fields;
  c_reviews : list Id
}.

Record ReviewDoc := mkReview {
  r_id : Id;
  r_fields : Fields
}.

Global Instance CampgroundDoc_eq_dec : EqDecision CampgroundDoc.
Proof. solve_decision. Defined.
Global Instance ReviewDoc_eq_dec : EqDecision ReviewDoc.
Proof. solve_decision. Defined.

(** One collection per entity. *)
Record DB := mkDB {
  campgrounds : gmap Id CampgroundDoc;
  reviews : gmap Id ReviewDoc
}.

(** The world a request runs in: the collections, and a schedule telling
    which of the coming store operations reject ([true] = that operation
    fails).  An empty schedule is a healthy store. *)
Record World := mkWorld {
  db : DB;
  faults : list bool
}.

(** A store in which no operation fails. *)
Definition healthy (d : DB) : World := {| db := d; faults := [] |}.

(** ** Async computations *)

Inductive Res (A : Type) : Type :=
| Ok (a : A)
| Raise (e : JsError).
Arguments Ok {A} a.
Arguments Raise {A} e.

(** The body of a function that may [throw] (or, if [async], reject) and
    that reads and writes the store. *)
Definition Js (A : Type) : Type := World -> Res A * World.

Definition ret {A} (a : A) : Js A := fun w => (Ok a, w).

Definition throw {A} (e : JsError) : Js A := fun w => (Raise e, w).

Definition bind {A B} (m : Js A) (k : A -> Js B) : Js B :=
  fun w =>
    match m w with
    | (Ok a, w') => k a w'
    | (Raise e, w') => (Raise e, w')
    end.

(** [promise.catch(h)] *)
Definition catch {A} (m : Js A) (h : JsError -> Js A) : Js A :=
  fun w =>
    match m w with
    | (Ok a, w') => (Ok a, w')
    | (Raise e, w') => h e w'
    end.

Notation "x <- m ;; k" := (bind m (fun x => k))
  (at level 100, m at next level, right associativity).
Notation "m ;;; k" := (bind m (fun _ => k))
  (at level 100, right associativity).

(** One round trip to the database: it consumes one entry of the fault
    schedule and rejects, leaving the collections alone, when that entry
    says so. *)
Definition store_op {A} (f : DB -> A * DB) : Js A :=
  fun w =>
    match faults w with
    | true :: fs => (Raise StoreError, {| db := db w; faults := fs |})
    | false :: fs =>
        let '(a, d) := f (db w) in (Ok a, {| db := d; faults := fs |})
    | [] =>
        let '(a, d) := f (db w) in (Ok a, {| db := d; faults := [] |})
    end.

(** ** The models *)

(** Update documents accepted by [findByIdAndUpdate]: a plain object of
    fields (merged into the record) or [{ $pull: { reviews: r } }]. *)
Inductive Update :=
| SetFields (f : Fields)
| PullReview (r : Id).

(** [$pull] removes every element of the array equal to the value. *)
Definition pull (r : Id) (l : list Id) : list Id :=
  filter (fun x => x ≠ r) l.

Definition apply_update (u : Update) (c : CampgroundDoc) : CampgroundDoc :=
  match u with
  | SetFields f =>
      {| c_id := c_id c; c_fields := f ∪ c_fields c; c_reviews := c_reviews c |}
  | PullReview r =>
      {| c_id := c_id c; c_fields := c_fields c; c_reviews := pull r (c_reviews c) |}
  end.

(** A new document gets an identifier that no stored record carries. *)
Definition new_id (d : DB) : Id :=
  fresh (dom (campgrounds d) ∪ dom (reviews d)).

(** [Review.deleteMany({ _id: { $in: ids } })] *)
Definition deleteMany (ids : list Id) (m : gmap Id ReviewDoc) : gmap Id ReviewDoc :=
  foldr delete m ids.

Module Campground.

(** [Campground.find({})] *)
Definition find : Js (list CampgroundDoc) :=
  store_op (fun d => (snd <$> map_to_list (campgrounds d), d)).

(** [Campground.findById(id)]: the record, or [null]. *)
Definition findById (id : Id) : Js (option CampgroundDoc) :=
  store_op (fun d => (campgrounds d !! id, d)).

(** [Campground.findById(id).populate('reviews')]: the review references
    that resolve are replaced by the records they name. *)
Definition findById_populate (id : Id)
  : Js (option (CampgroundDoc * list ReviewDoc)) :=
  store_op (fun d =>
    ((fun c => (c, omap (fun r => reviews d !! r) (c_reviews c)))
       <$> campgrounds d !! id, d)).

(** [new Campground(fields)]: built locally, with its [_id] and an empty
    review list; an absent payload gives an empty document. *)
Definition new (f : option Fields) : Js CampgroundDoc :=
  fun w => (Ok {| c_id := new_id (db w);
                  c_fields := default ∅ f;
                  c_reviews := [] |}, w).

(** [campground.save()] *)
Definition save (c : CampgroundDoc) : Js unit :=
  store_op (fun d =>
    (tt, {| campgrounds := <[c_id c := c]> (campgrounds d);
            reviews := reviews d |})).

(** [Campground.findByIdAndUpdate(id, update)]: resolves to the record as
    it was before the update, or to [null] (and changes nothing) when no
    record has that id. *)
Definition findByIdAndUpdate (id : Id) (u : Update)
  : Js (option CampgroundDoc) :=
  store_op (fun d =>
    match campgrounds d !! id with
    | Some c =>
        (Some c, {| campgrounds := <[id := apply_update u c]> (campgrounds d);
                    reviews := reviews d |})
    | None => (None, d)
    end).

(** Modelled from the spec: [models/campground.js] is absent, and with it
    whatever the model runs after a delete.  Sections 3 and 4.4 say that
    Delete Campground removes the record by id and must also remove every
    Review it owns; that second removal is this step, run on the record
    that was removed (nothing to do when there was none). *)
Definition post_findOneAndDelete (doc : option CampgroundDoc) : Js unit :=
  match doc with
  | Some c =>
      store_op (fun d =>
        (tt, {| campgrounds := campgrounds d;
                reviews := deleteMany (c_reviews c) (reviews d) |}))
  | None => ret tt
  end.

(** [Campground.findByIdAndDelete(id)] *)
Definition findByIdAndDelete (id : Id) : Js (option CampgroundDoc) :=
  doc <- store_op (fun d =>
           (campgrounds d !! id,
            {| campgrounds := delete id (campgrounds d);
               reviews := reviews d |})) ;;
  post_findOneAndDelete doc ;;;
  ret doc.

End Campground.

Module Review.

(** [new Review(fields)] *)
Definition new (f : option Fields) : Js ReviewDoc :=
  fun w => (Ok {| r_id := new_id (db w); r_fields := default ∅ f |}, w).

(** [review.save()] *)
Definition save (r : ReviewDoc) : Js unit :=
  store_op (fun d =>
    (tt, {| campgrounds := campgrounds d;
            reviews := <[r_id r := r]> (reviews d) |})).

(** [Review.findByIdAndDelete(id)] *)
Definition findByIdAndDelete (id : Id) : Js (option ReviewDoc) :=
  store_op (fun d =>
    (reviews d !! id,
     {| campgrounds := campgrounds d;
        reviews := delete id (reviews d) |})).

End Review.

(** ** Requests and responses *)

Inductive Method := GET | HEAD | POST | PUT | DELETE | PATCH | OPTIONS.

Global Instance Method_eq_dec : EqDecision Method.
Proof. solve_decision. Defined.

(** [req.body] after the form parser: the payload of the entity, under
    the key the forms use. *)
Record Body := mkBody {
  b_campground : option Fields;
  b_review : option Fields
}.

(** The request as Express hands it to a stage.  [path] is the URL path
    split at [/], without empty segments (a trailing slash makes no
    difference to the routes); [params] are the bindings of the route that
    matched;
    [query_method] is the [_method] query parameter; [has_flash] tells
    whether some middleware has installed [req.flash]. *)
Record Req := mkReq {
  method : Method;
  path : list string;
  body : Body;
  query_method : option Method;
  params : list (string * string);
  has_flash : bool
}.

(** What comes over the wire.  [h_body] is the form payload the request
    carries; [h_parse_error] is the error the body parser raises on it, if
    it raises one (payload too large, unsupported encoding, ...). *)
Record HttpRequest := mkHttp {
  h_method : Method;
  h_path : list string;
  h_body : Body;
  h_query_method : option Method;
  h_parse_error : option JsError
}.

(** The request object before any middleware has run: no route
    parameters, and no [flash]. *)
Definition incoming (h : HttpRequest) : Req :=
  {| method := h_method h; path := h_path h; body := h_body h;
     query_method := h_query_method h; params := []; has_flash := false |}.

Fixpoint lookup_param (n : string) (ps : list (string * string)) : string :=
  match ps with
  | [] => ""
  | (k, v) :: ps' => if String.eqb k n then v else lookup_param n ps'
  end.

(** [req.params.name] *)
Definition param (n : string) (req : Req) : string :=
  lookup_param n (params req).

(** The data object handed to a view. *)
Inductive Locals :=
| NoLocals
| LCampgrounds (cs : list CampgroundDoc)
| LShow (c : option (CampgroundDoc * list ReviewDoc))
| LEdit (c : option CampgroundDoc)
| LErr (err : JsError).

(** [Allow] is the answer a router gives by itself to an [OPTIONS]
    request: status 200 and the [Allow] header. *)
Inductive Response :=
| Render (status : Z) (view : string) (locals : Locals)
| Redirect (location : list string)
| Allow (methods : list Method).

Definition status_of (r : Response) : Z :=
  match r with
  | Render s _ _ => s
  | Redirect _ => 302
  | Allow _ => 200
  end.

(** What a stage did with [res] and [next]. *)
Inductive Signal :=
| Sent (r : Response)
| CallNext
| CallNextErr (e : JsError).

(** Modelled from the spec: the views are absent.  Sections 4.4 and 9 say
    that the result of "get by id, populated" is used without a null
    check and that the request crashes on an unknown id: the detail view
    reads the campground it is given.  The spec says nothing of a failure
    in any other view, so the others render. *)
Definition view_error (view : string) (l : Locals) : option JsError :=
  match l with
  | LShow None => Some (TypeError "Cannot read properties of null")
  | _ => None
  end.

(** [res.status(s).render(view, locals)]: an error raised while the view
    is evaluated is handed to [next]. *)
Definition res_render (s : Z) (view : string) (l : Locals) : Signal :=
  match view_error view l with
  | Some e => CallNextErr e
  | None => Sent (Render s view l)
  end.

Definition res_redirect (location : list string) : Signal :=
  Sent (Redirect location).

(** ** Stages, routes and dispatch *)

(** A stage of a route.  A plain function that throws is caught by the
    framework and the error is propagated.  An [async] function given to
    the framework as it is returns a promise the framework drops: when it
    rejects, nobody handles the rejection and nothing is sent. *)
Inductive Stage :=
| Sync (h : Req -> Js Signal)
| Async (h : Req -> Js Signal).

(** Modelled from the spec: [utils/catchAsync.js] is absent.  Section 4.2:
    given an asynchronous operation, it returns a handler that invokes the
    operation and, if it fails, forwards the failure into the framework's
    error channel. *)
Definition catchAsync (fn : Req -> Js Signal) : Stage :=
  Sync (fun req => catch (fn req) (fun e => ret (CallNextErr e))).

Inductive Seg :=
| Lit (s : string)
| Param (name : string).

(** [r_method = None] is [app.all]; [r_path = None] is ['*']. *)
Record Route := mkRoute {
  r_method : option Method;
  r_path : option (list Seg);
  r_stages : list Stage
}.

(** Literal segments are compared as they are written: a request path
    is taken with the fixed words of the routes spelt as the routes spell
    them.  ([match_segs_ci] below is the comparison Express makes, which
    disregards the case of letters.) *)
Fixpoint match_segs (pat : list Seg) (p : list string)
  : option (list (string * string)) :=
  match pat, p with
  | [], [] => Some []
  | Lit s :: pat', x :: p' =>
      if String.eqb s x then match_segs pat' p' else None
  | Param n :: pat', x :: p' =>
      match match_segs pat' p' with
      | Some ps => Some ((n, x) :: ps)
      | None => None
      end
  | _, _ => None
  end.

Definition match_path (pat : option (list Seg)) (p : list string)
  : option (list (string * string)) :=
  match pat with
  | None => Some []
  | Some segs => match_segs segs p
  end.

(** A [GET] route also serves [HEAD]. *)
Definition match_method (rm : option Method) (m : Method) : bool :=
  match rm with
  | None => true
  | Some GET => bool_decide (m = GET) || bool_decide (m = HEAD)
  | Some m' => bool_decide (m = m')
  end.

Definition route_matches (r : Route) (req : Req) : bool :=
  match_method (r_method r) (method req)
  && match match_path (r_path r) (path req) with
     | Some _ => true
     | None => false
     end.

(** The outcome of a request. *)
Inductive Result :=
| Responded (r : Response)
| Hung (e : JsError)              (* unhandled rejection, no response *)
| FinalHandler (e : option JsError). (* fell off the end of the stack *)

Inductive Flow :=
| Done (r : Result)
| Fall
| Err (e : JsError).

Definition with_params (ps : list (string * string)) (req : Req) : Req :=
  {| method := method req; path := path req; body := body req;
     query_method := query_method req; params := ps;
     has_flash := has_flash req |}.

Fixpoint run_stages (ss : list Stage) (req : Req) (w : World) : Flow * World :=
  match ss with
  | [] => (Fall, w)
  | Sync h :: ss' =>
      match h req w with
      | (Ok (Sent r), w') => (Done (Responded r), w')
      | (Ok CallNext, w') => run_stages ss' req w'
      | (Ok (CallNextErr e), w') => (Err e, w')
      | (Raise e, w') => (Err e, w')
      end
  | Async h :: ss' =>
      match h req w with
      | (Ok (Sent r), w') => (Done (Responded r), w')
      | (Ok CallNext, w') => run_stages ss' req w'
      | (Ok (CallNextErr e), w') => (Err e, w')
      | (Raise e, w') => (Done (Hung e), w')
      end
  end.

Fixpoint dispatch (rs : list Route) (req : Req) (w : World) : Flow * World :=
  match rs with
  | [] => (Fall, w)
  | r :: rs' =>
      if match_method (r_method r) (method req) then
        match match_path (r_path r) (path req) with
        | Some ps =>
            match run_stages (r_stages r) (with_params ps req) w with
            | (Fall, w') => dispatch rs' req w'
            | out => out
            end
        | None => dispatch rs' req w
        end
      else dispatch rs' req w
  end.

(** The routes of a router, below the prefix it is mounted at. *)
Definition prefixed (prefix : list Seg) (router : list Route) : list Route :=
  (fun r => {| r_method := r_method r;
               r_path := (fun p => (prefix ++ p)%list) <$> r_path r;
               r_stages := r_stages r |}) <$> router.

(** The methods a route contributes to an [Allow] header: a [GET] route
    also answers [HEAD]. *)
Definition route_options (r : Route) : list Method :=
  match r_method r with
  | Some GET => [GET; HEAD]
  | Some m => [m]
  | None => []
  end.

Definition append_methods (acc new : list Method) : list Method :=
  foldl (fun a m => if bool_decide (m ∈ a) then a else (a ++ [m])%list) acc new.

(** The methods of the routes whose path matches, in the order of the
    routes and without repetition. *)
Definition allowed_methods (rs : list Route) (p : list string) : list Method :=
  foldl (fun acc r =>
           match match_path (r_path r) p with
           | Some _ => append_methods acc (route_options r)
           | None => acc
           end) [] rs.

(** What a router does with an [OPTIONS] request none of its routes has
    handled: if the path matches some of them it answers with their
    methods, otherwise it passes the request on. *)
Definition sendOptions (rs : list Route) (req : Req) : Js Signal :=
  ret (match allowed_methods rs (path req) with
       | [] => CallNext
       | ms => Sent (Allow ms)
       end).

(** [app.use(prefix, router)]: the router's routes, below the prefix,
    followed by the router's own answer to [OPTIONS]. *)
Definition mount (prefix : list Seg) (router : list Route) : list Route :=
  (prefixed prefix router
   ++ [ {| r_method := Some OPTIONS; r_path := None;
           r_stages := [Sync (sendOptions (prefixed prefix router))] |} ])%list.

(** A middleware sees the request as it came and the request object;
    it hands on the request object or raises. *)
Definition Middleware : Type := HttpRequest -> Req -> Res Req.

Record App := mkApp {
  middleware : list Middleware;
  routes : list Route;
  error_handler : JsError -> Req -> Signal
}.

(** Where a request ends once the route stack has been walked: a
    propagated error goes to the error-handling middleware. *)
Definition settle (app : App) (req : Req) (out : Flow * World) : Result * World :=
  match out with
  | (Done r, w') => (r, w')
  | (Fall, w') => (FinalHandler None, w')
  | (Err e, w') =>
      match error_handler app e req with
      | Sent r => (Responded r, w')
      | CallNext => (FinalHandler (Some e), w')
      | CallNextErr e' => (FinalHandler (Some e'), w')
      end
  end.

(** Runs the middleware in order; stops at the first one that raises. *)
Fixpoint run_middleware (ms : list Middleware) (h : HttpRequest) (req : Req)
  : Req * option JsError :=
  match ms with
  | [] => (req, None)
  | mw :: ms' =>
      match mw h req with
      | Ok req' => run_middleware ms' h req'
      | Raise e => (req, Some e)
      end
  end.

(** The request object once the middleware stack has run (as far as it
    ran). *)
Definition prepared (app : App) (h : HttpRequest) : Req :=
  (run_middleware (middleware app) h (incoming h)).1.

(** The error a middleware raised, if one did. *)
Definition middleware_error (app : App) (h : HttpRequest) : option JsError :=
  (run_middleware (middleware app) h (incoming h)).2.

(** An error raised by a middleware skips the routes and goes to the
    error handler. *)
Definition handle (app : App) (h : HttpRequest) (w : World) : Result * World :=
  let req := prepared app h in
  match middleware_error app h with
  | Some e => settle app req (Err e, w)
  | None => settle app req (dispatch (routes app) req w)
  end.

(** [express.urlencoded({ extended: true })]: the payload is modelled
    already parsed when the parser accepts it; when the parser rejects the
    request, its error is raised. *)
Definition urlencoded : Middleware := fun h req =>
  match h_parse_error h with
  | Some e => Raise e
  | None => Ok req
  end.

(** [methodOverride('_method')]: a [POST] carrying [?_method=M] is
    handled as an [M]. *)
Definition methodOverride : Middleware := fun h req =>
  match method req, query_method req with
  | POST, Some m =>
      Ok {| method := m; path := path req; body := body req;
            query_method := query_method req; params := params req;
            has_flash := has_flash req |}
  | _, _ => Ok req
  end.

(** ** Schema validation *)

(** One entry of [error.details]. *)
Record Detail := mkDetail { d_message : string }.

(** The [error] of [schema.validate(payload)]. *)
Record ValidationError := mkValidationError { details : list Detail }.

(** [schema.validate]: [None] when the payload is valid ([error] is
    [undefined]).  [schemas.js] is absent, so the two schemas are
    parameters of the application. *)
Definition Schema := Body -> option ValidationError.

(** [error.details.map(el => el.message).join(',')] *)
Definition joined_messages (e : ValidationError) : string :=
  String.concat "," (d_message <$> details e).

Definition validate (schema : Schema) (req : Req) : Js Signal :=
  match schema (body req) with
  | Some error => throw (ExpressError (joined_messages error) 400)
  | None => ret CallNext
  end.

(** ** The error-handling middleware and the catch-all *)

Definition default_message : string := "Oh No, Something Went Wrong!".

(** [!err.message] *)
Definition no_message (m : option string) : bool :=
  match m with
  | None => true
  | Some s => String.eqb s ""
  end.

(** [app.use((err, req, res, next) => ...)] *)
Definition errorHandler (err : JsError) (req : Req) : Signal :=
  let code := default 500 (statusCode err) in
  let err' :=
    if no_message (message err)
    then {| message := Some default_message; statusCode := statusCode err |}
    else err in
  res_render code "error" (LErr err').

(** [app.all('*', ...)] *)
Definition notFound (req : Req) : Js Signal :=
  ret (CallNextErr (ExpressError "Page Not Found" 404)).

Definition catch_all : Route :=
  {| r_method := None; r_path := None; r_stages := [Sync notFound] |}.

(** ** Route handlers *)

(** [req.flash(...)]: a call of [undefined] unless a middleware has put
    the function there. *)
Definition req_flash (req : Req) : Js unit :=
  if has_flash req then ret tt
  else throw (TypeError "req.flash is not a function").

Definition home (req : Req) : Js Signal :=
  ret (res_render 200 "home" NoLocals).

Module CampgroundRoutes.

Definition index (req : Req) : Js Signal :=
  campgrounds <- Campground.find ;;
  ret (res_render 200 "campgrounds/index" (LCampgrounds campgrounds)).

Definition newForm (req : Req) : Js Signal :=
  ret (res_render 200 "campgrounds/new" NoLocals).

Definition create (req : Req) : Js Signal :=
  campground <- Campground.new (b_campground (body req)) ;;
  Campground.save campground ;;;
  ret (res_redirect ["campgrounds"; c_id campground]).

Definition show (req : Req) : Js Signal :=
  campground <- Campground.findById_populate (param "id" req) ;;
  ret (res_render 200 "campgrounds/show" (LShow campground)).

Definition edit (req : Req) : Js Signal :=
  campground <- Campground.findById (param "id" req) ;;
  ret (res_render 200 "campgrounds/edit" (LEdit campground)).

(** [campground._id] on [null] is a [TypeError]. *)
Definition update (req : Req) : Js Signal :=
  let id := param "id" req in
  campground <- Campground.findByIdAndUpdate id
                  (SetFields (default ∅ (b_campground (body req)))) ;;
  match campground with
  | Some c => ret (res_redirect ["campgrounds"; c_id c])
  | None => throw (TypeError "Cannot read properties of null (reading '_id')")
  end.

Definition destroy (req : Req) : Js Signal :=
  let id := param "id" req in
  Campground.findByIdAndDelete id ;;;
  ret (res_redirect ["campgrounds"]).

End CampgroundRoutes.

Module ReviewRoutes.

(** The part the two variants of "create review" share:
    find, construct, push, save, save. *)
Definition add_review (req : Req) : Js CampgroundDoc :=
  campground <- Campground.findById (param "id" req) ;;
  review <- Review.new (b_review (body req)) ;;
  match campground with
  | None =>
      throw (TypeError "Cannot read properties of null (reading 'reviews')")
  | Some c =>
      let c' := {| c_id := c_id c; c_fields := c_fields c;
                   c_reviews := (c_reviews c ++ [r_id review])%list |} in
      Review.save review ;;;
      Campground.save c' ;;;
      ret c'
  end.

(** [routes/reviews.js] *)
Definition create (req : Req) : Js Signal :=
  campground <- add_review req ;;
  req_flash req ;;;
  ret (res_redirect ["campgrounds"; c_id campground]).

(** The same route as [app.js] declares it, without the flash. *)
Definition create_app (req : Req) : Js Signal :=
  campground <- add_review req ;;
  ret (res_redirect ["campgrounds"; c_id campground]).

Definition destroy (req : Req) : Js Signal :=
  let id := param "id" req in
  let reviewId := param "reviewId" req in
  Campground.findByIdAndUpdate id (PullReview reviewId) ;;;
  Review.findByIdAndDelete reviewId ;;;
  ret (res_redirect ["campgrounds"; id]).

End ReviewRoutes.

(** ** The two applications *)

Section Application.

Variables campgroundSchema reviewSchema : Schema.

Definition validateCampground : Req -> Js Signal := validate campgroundSchema.
Definition validateReview : Req -> Js Signal := validate reviewSchema.

Definition route (m : Method) (p : list Seg) (ss : list Stage) : Route :=
  {| r_method := Some m; r_path := Some p; r_stages := ss |}.

(** [routes/campgrounds.js] *)
Definition campgrounds_router : list Route :=
  [ route GET [] [catchAsync CampgroundRoutes.index];
    route GET [Lit "new"] [Sync CampgroundRoutes.newForm];
    route POST [] [Sync validateCampground; catchAsync CampgroundRoutes.create];
    route GET [Param "id"] [catchAsync CampgroundRoutes.show];
    route GET [Param "id"; Lit "edit"] [catchAsync CampgroundRoutes.edit];
    route PUT [Param "id"] [Sync validateCampground; catchAsync CampgroundRoutes.update];
    route DELETE [Param "id"] [catchAsync CampgroundRoutes.destroy] ].

(** [routes/reviews.js] *)
Definition reviews_router : list Route :=
  [ route POST [] [Sync validateReview; catchAsync ReviewRoutes.create];
    route DELETE [Param "reviewId"] [catchAsync ReviewRoutes.destroy] ].

(** The routes of the two mounted routers, with their prefixes. *)
Definition mounted_routes : list Route :=
  (prefixed [Lit "campgrounds"] campgrounds_router
   ++ prefixed [Lit "campgrounds"; Param "id"; Lit "reviews"] reviews_router)%list.

(** The routes of the [app.js] that mounts the routers, the catch-all
    left out. *)
Definition router_app_routes : list Route :=
  (mounted_routes ++ [ route GET [] [Sync home] ])%list.

(** What that application walks before the catch-all: the two mounted
    routers, then the home route. *)
Definition router_app_stack : list Route :=
  (mount [Lit "campgrounds"] campgrounds_router
   ++ mount [Lit "campgrounds"; Param "id"; Lit "reviews"] reviews_router
   ++ [ route GET [] [Sync home] ])%list.

Definition router_app : App :=
  {| middleware := [urlencoded; methodOverride];
     routes := (router_app_stack ++ [catch_all])%list;
     error_handler := errorHandler |}.

(** The routes of the [app.js] that declares every route itself, the
    catch-all left out.  The list handler is passed as a bare [async]
    function. *)
Definition single_app_routes : list Route :=
  [ route GET [] [Sync home];
    route GET [Lit "campgrounds"] [Async CampgroundRoutes.index];
    route GET [Lit "campgrounds"; Lit "new"] [Sync CampgroundRoutes.newForm];
    route POST [Lit "campgrounds"]
      [Sync validateCampground; catchAsync CampgroundRoutes.create];
    route GET [Lit "campgrounds"; Param "id"] [catchAsync CampgroundRoutes.show];
    route GET [Lit "campgrounds"; Param "id"; Lit "edit"]
      [catchAsync CampgroundRoutes.edit];
    route PUT [Lit "campgrounds"; Param "id"]
      [Sync validateCampground; catchAsync CampgroundRoutes.update];
    route DELETE [Lit "campgrounds"; Param "id"]
      [catchAsync CampgroundRoutes.destroy];
    route POST [Lit "campgrounds"; Param "id"; Lit "reviews"]
      [Sync validateReview; catchAsync ReviewRoutes.create_app];
    route DELETE [Lit "campgrounds"; Param "id"; Lit "reviews"; Param "reviewId"]
      [catchAsync ReviewRoutes.destroy] ].

Definition single_app : App :=
  {| middleware := [urlencoded; methodOverride];
     routes := (single_app_routes ++ [catch_all])%list;
     error_handler := errorHandler |}.

End Application.

(** ** Requests used below *)

Definition no_body : Body := {| b_campground := None; b_review := None |}.

Definition request (m : Method) (p : list string) (b : Body) : HttpRequest :=
  {| h_method := m; h_path := p; h_body := b; h_query_method := None;
     h_parse_error := None |}.

(** ** Store invariants *)

(** Every review identifier in a campground's list names a stored
    review. *)
Definition refs_resolve (d : DB) : Prop :=
  map_Forall (fun _ c => Forall (fun r => is_Some (reviews d !! r)) (c_reviews c))
             (campgrounds d).

(** A review is referenced by at most one campground. *)
Definition single_owner (d : DB) : Prop :=
  map_Forall (fun k1 c1 =>
    map_Forall (fun k2 c2 =>
      k1 = k2 ∨ Forall (fun r => r ∉ c_reviews c2) (c_reviews c1))
      (campgrounds d))
    (campgrounds d).

Global Instance refs_resolve_dec d : Decision (refs_resolve d).
Proof. unfold refs_resolve. apply _. Defined.

Global Instance single_owner_dec d : Decision (single_owner d).
Proof. unfold single_owner. apply _. Defined.

(** The two variants of [app.js] under one name. *)
Inductive Variant := Monolith | Routed.

Definition application (v : Variant) (cs rs : Schema) : App :=
  match v with
  | Monolith => single_app cs rs
  | Routed => router_app cs rs
  end.

(** The routes an application defines, the catch-all apart. *)
Definition defined_routes (v : Variant) (cs rs : Schema) : list Route :=
  match v with
  | Monolith => single_app_routes cs rs
  | Routed => router_app_routes cs rs
  end.

Definition is_sync (s : Stage) : bool :=
  match s with
  | Sync _ => true
  | Async _ => false
  end.

(** How many times [r] occurs in [l]. *)
Definition occurrences (r : Id) (l : list Id) : nat :=
  length (filter (fun x => x = r) l).

(** The message the error view is given. *)
Definition shown_message (err : JsError) : option string :=
  match errorHandler err (incoming (request GET [] no_body)) with
  | Sent (Render _ _ (LErr e)) => message e
  | _ => None
  end.

(** The response to a payload the schema rejects. *)
Definition rejected (error : ValidationError) : Result :=
  Responded (Render 400 "error"
    (LErr {| message := shown_message (ExpressError (joined_messages error) 400);
             statusCode := Some 400 |})).

(** [DELETE /campgrounds/:id/reviews/:reviewId] *)
Definition delete_review_request (id reviewId : Id) : HttpRequest :=
  request DELETE ["campgrounds"; id; "reviews"; reviewId] no_body.

(** "The review is gone from the list and from the collection, and the
    list is shorter by exactly one", for one request on one store. *)
Definition review_list_shrinks_by_one (app : App) (id reviewId : Id) (d : DB)
  : Prop :=
  ∃ c c' d',
    campgrounds d !! id = Some c
    ∧ handle app (delete_review_request id reviewId) (healthy d)
      = (Responded (Redirect ["campgrounds"; id]), healthy d')
    ∧ campgrounds d' !! id = Some c'
    ∧ (reviewId ∉ c_reviews c')
    ∧ reviews d' !! reviewId = None
    ∧ S (length (c_reviews c')) = length (c_reviews c).

(** ** Sample data *)

Module Sample.

Definition required (key what : string) (f : Fields) : list Detail :=
  match f !! key with
  | Some _ => []
  | None => [ {| d_message := what |} ]
  end.

Definition report (ds : list Detail) : option ValidationError :=
  match ds with
  | [] => None
  | _ => Some {| details := ds |}
  end.

(** A campground needs a title and a price. *)
Definition campgroundSchema : Schema := fun b =>
  match b_campground b with
  | None => report [ {| d_message := "campground is required" |} ]
  | Some f =>
      report (required "title" "title is required" f
              ++ required "price" "price is required" f)%list
  end.

(** A review needs a rating and a body. *)
Definition reviewSchema : Schema := fun b =>
  match b_review b with
  | None => report [ {| d_message := "review is required" |} ]
  | Some f =>
      report (required "rating" "rating is required" f
              ++ required "body" "body is required" f)%list
  end.

Definition pine_ridge : Fields :=
  <["title" := "Pine Ridge"]> (<["location" := "CO"]> (<["price" := "25"]> ∅)).

Definition great : Fields :=
  <["rating" := "5"]> (<["body" := "Great"]> ∅).

Definition campground_body : Body :=
  {| b_campground := Some pine_ridge; b_review := None |}.

Definition review_body : Body :=
  {| b_campground := None; b_review := Some great |}.

(** A payload with neither title nor price. *)
Definition bad_body : Body :=
  {| b_campground := Some (<["location" := "CO"]> ∅); b_review := None |}.

(** One campground, [c1], owning reviews [r1] and [r2]; a second one,
    [c2], owning [r3]. *)
Definition store : DB :=
  {| campgrounds :=
       <["c1" := {| c_id := "c1"; c_fields := pine_ridge;
                    c_reviews := ["r1"; "r2"] |}]>
       (<["c2" := {| c_id := "c2"; c_fields := pine_ridge;
                     c_reviews := ["r3"] |}]> ∅);
     reviews :=
       <["r1" := {| r_id := "r1"; r_fields := great |}]>
       (<["r2" := {| r_id := "r2"; r_fields := great |}]>
       (<["r3" := {| r_id := "r3"; r_fields := great |}]> ∅)) |}.

End Sample.

(** ** Invariants of computations *)

(** Each stored record carries the identifier it is stored under. *)
Definition ids_match (d : DB) : Prop :=
  map_Forall (fun k c => c_id c = k) (campgrounds d)
  ∧ map_Forall (fun k r => r_id r = k) (reviews d).

Definition well_formed (d : DB) : Prop :=
  ids_match d ∧ refs_resolve d ∧ single_owner d.

(** No campground other than [id] lists [reviewId]. *)
Definition only_listed_by (id reviewId : Id) (d : DB) : Prop :=
  map_Forall (fun k c => k = id ∨ reviewId ∉ c_reviews c) (campgrounds d).

Global Instance only_listed_by_dec id reviewId d :
  Decision (only_listed_by id reviewId d).
Proof. unfold only_listed_by. apply _. Defined.

(** The computation keeps a property of the collections, whatever the
    fault schedule. *)
Definition keeps (P : DB -> Prop) {A} (m : Js A) : Prop :=
  ∀ w, P (db w) -> P (db (m w).2).

Definition stage_handler (s : Stage) : Req -> Js Signal :=
  match s with
  | Sync h => h
  | Async h => h
  end.

Definition stage_keeps (P : DB -> Prop) (s : Stage) : Prop :=
  ∀ req, keeps P (stage_handler s req).

(** ** Matching as Express compares paths *)







(** Two request objects that differ at most in the [_method] query
    parameter. *)
Definition same_but_query (req req' : Req) : Prop :=
  method req = method req' ∧ path req = path req' ∧ body req = body req'
  ∧ params req = params req' ∧ has_flash req = has_flash req'.

Definition stage_ignores_query (s : Stage) : Prop :=
  ∀ req req', same_but_query req req' -> stage_handler s req = stage_handler s req'.

(** * Properties *)

(** ** The store on a healthy world *)

Lemma store_op_healthy {A} (f : DB -> A * DB) (d : DB) :
  store_op f (healthy d) = (Ok (f d).1, healthy (f d).2).
Proof. unfold store_op, healthy. simpl. by destruct (f d). Qed.

Lemma new_id_fresh_campground (d : DB) : campgrounds d !! new_id d = None.
Proof.
  apply not_elem_of_dom. unfold new_id.
  pose proof (is_fresh (dom (campgrounds d) ∪ dom (reviews d))). set_solver.
Qed.

Lemma new_id_fresh_review (d : DB) : reviews d !! new_id d = None.
Proof.
  apply not_elem_of_dom. unfold new_id.
  pose proof (is_fresh (dom (campgrounds d) ∪ dom (reviews d))). set_solver.
Qed.

Lemma length_pull (r : Id) (l : list Id) :
  (length (pull r l) + occurrences r l = length l)%nat.
Proof.
  unfold pull, occurrences. induction l as [|x l IH]; [done|].
  rewrite !filter_cons. destruct (decide (x = r)) as [->|Hne].
  - rewrite decide_False by (intros H; by apply H). simpl. lia.
  - rewrite decide_True by done. simpl. lia.
Qed.

Lemma pull_not_elem (r : Id) (l : list Id) : r ∉ pull r l.
Proof. unfold pull. rewrite list_elem_of_filter. by intros [? _]. Qed.

Lemma pull_absent (r : Id) (l : list Id) : r ∉ l -> pull r l = l.
Proof.
  intros Hr. unfold pull. induction l as [|x l IH]; [done|].
  rewrite filter_cons. apply not_elem_of_cons in Hr as [Hne Hr].
  rewrite decide_True by done. by rewrite IH.
Qed.

(** ** Walking the route stack *)

Lemma dispatch_miss_method r rs req w :
  match_method (r_method r) (method req) = false ->
  dispatch (r :: rs) req w = dispatch rs req w.
Proof. intros H. simpl. by rewrite H. Qed.

Lemma dispatch_miss_path r rs req w :
  match_path (r_path r) (path req) = None ->
  dispatch (r :: rs) req w = dispatch rs req w.
Proof. intros H. simpl. rewrite H. by destruct (match_method _ _). Qed.


Lemma dispatch_hit r rs req w ps out w' :
  match_method (r_method r) (method req) = true ->
  match_path (r_path r) (path req) = Some ps ->
  run_stages (r_stages r) (with_params ps req) w = (out, w') ->
  out ≠ Fall ->
  dispatch (r :: rs) req w = (out, w').
Proof.
  intros Hm Hp Hrun Hout. simpl. rewrite Hm, Hp, Hrun. by destruct out.
Qed.


(** The request object that reaches the routes: the middleware leaves a
    request without [_method] as it came. *)
Lemma prepared_request v cs rs m p b :
  prepared (application v cs rs) (request m p b) =
  {| method := m; path := p; body := b; query_method := None;
     params := []; has_flash := false |}.
Proof. by destruct v, m. Qed.

Lemma middleware_accepts v cs rs h :
  h_parse_error h = None -> middleware_error (application v cs rs) h = None.
Proof.
  intros H. unfold middleware_error.
  destruct v; simpl; unfold urlencoded; rewrite H; simpl;
    unfold methodOverride;
    by destruct (method (incoming h)), (query_method (incoming h)).
Qed.

Lemma middleware_rejects v cs rs h e :
  h_parse_error h = Some e ->
  middleware_error (application v cs rs) h = Some e
  ∧ prepared (application v cs rs) h = incoming h.
Proof.
  intros H. unfold middleware_error, prepared.
  destruct v; simpl; unfold urlencoded; by rewrite H.
Qed.

(** A request the parser rejects goes to the error handler with the
    parser's error; no route runs. *)
Lemma handle_rejected v cs rs h w e :
  h_parse_error h = Some e ->
  handle (application v cs rs) h w =
  settle (application v cs rs) (incoming h) (Err e, w).
Proof.
  intros H. unfold handle.
  by destruct (middleware_rejects v cs rs h e H) as [-> ->].
Qed.

(** A request the parser accepts goes to the routes. *)
Lemma handle_parsed v cs rs h w :
  h_parse_error h = None ->
  handle (application v cs rs) h w =
  settle (application v cs rs) (prepared (application v cs rs) h)
    (dispatch (routes (application v cs rs)) (prepared (application v cs rs) h) w).
Proof. intros H. unfold handle. by rewrite middleware_accepts. Qed.

(** ** Running the stages of a route *)

Lemma run_catchAsync_sent fn ss req w r w' :
  fn req w = (Ok (Sent r), w') ->
  run_stages (catchAsync fn :: ss) req w = (Done (Responded r), w').
Proof. intros H. simpl. unfold catch. by rewrite H. Qed.

Lemma run_catchAsync_next_err fn ss req w e w' :
  fn req w = (Ok (CallNextErr e), w') ->
  run_stages (catchAsync fn :: ss) req w = (Err e, w').
Proof. intros H. simpl. unfold catch. by rewrite H. Qed.

Lemma run_catchAsync_raise fn ss req w e w' :
  fn req w = (Raise e, w') ->
  run_stages (catchAsync fn :: ss) req w = (Err e, w').
Proof. intros H. simpl. unfold catch. by rewrite H. Qed.

Lemma run_async_raise fn ss req w e w' :
  fn req w = (Raise e, w') ->
  run_stages (Async fn :: ss) req w = (Done (Hung e), w').
Proof. intros H. simpl. by rewrite H. Qed.

Lemma run_validate_pass schema ss req w :
  schema (body req) = None ->
  run_stages (Sync (validate schema) :: ss) req w = run_stages ss req w.
Proof. intros H. simpl. unfold validate. by rewrite H. Qed.

Lemma run_validate_fail schema ss req w error :
  schema (body req) = Some error ->
  run_stages (Sync (validate schema) :: ss) req w =
  (Err (ExpressError (joined_messages error) 400), w).
Proof. intros H. simpl. unfold validate. by rewrite H. Qed.

(** Exposes the route stack an application walks for a request built
    with [request]. *)
Ltac expose_stack :=
  rewrite handle_parsed by reflexivity; rewrite prepared_request;
  cbv [routes application single_app router_app single_app_routes router_app_stack
       mount prefixed campgrounds_router reviews_router route catch_all
       fmap list_fmap option_fmap option_map app r_method r_path r_stages].

Ltac route_miss :=
  first [ rewrite dispatch_miss_method by reflexivity
        | rewrite dispatch_miss_path by reflexivity ].

(** ** The handlers on a healthy store *)

Lemma destroy_campground_healthy req d :
  CampgroundRoutes.destroy req (healthy d) =
  (Ok (Sent (Redirect ["campgrounds"])),
   healthy {| campgrounds := delete (param "id" req) (campgrounds d);
              reviews := match campgrounds d !! param "id" req with
                         | Some c => deleteMany (c_reviews c) (reviews d)
                         | None => reviews d
                         end |}).
Proof.
  unfold CampgroundRoutes.destroy, Campground.findByIdAndDelete, bind.
  rewrite store_op_healthy. cbn [fst snd campgrounds reviews].
  destruct (campgrounds d !! param "id" req) as [c|]; cbn [Campground.post_findOneAndDelete].
  - by rewrite store_op_healthy.
  - done.
Qed.

Ltac route_hit run :=
  erewrite dispatch_hit; [ | reflexivity | reflexivity | run | discriminate ].

Lemma handle_destroy_campground v cs rs id b d :
  handle (application v cs rs) (request DELETE ["campgrounds"; id] b) (healthy d) =
  (Responded (Redirect ["campgrounds"]),
   healthy {| campgrounds := delete id (campgrounds d);
              reviews := match campgrounds d !! id with
                         | Some c => deleteMany (c_reviews c) (reviews d)
                         | None => reviews d
                         end |}).
Proof.
  destruct v; expose_stack; repeat route_miss.
  all: route_hit ltac:(apply run_catchAsync_sent, destroy_campground_healthy).
  all: reflexivity.
Qed.

(** ** Deleting a campground *)

Lemma refs_resolve_lookup d k c r :
  refs_resolve d -> campgrounds d !! k = Some c -> r ∈ c_reviews c ->
  is_Some (reviews d !! r).
Proof.
  intros Hd Hk Hr. specialize (Hd k c Hk). simpl in Hd.
  rewrite Forall_forall in Hd. by apply Hd.
Qed.

Lemma single_owner_lookup d k1 k2 c1 c2 r :
  single_owner d ->
  campgrounds d !! k1 = Some c1 -> campgrounds d !! k2 = Some c2 ->
  k1 ≠ k2 -> r ∈ c_reviews c1 -> r ∉ c_reviews c2.
Proof.
  intros Hd H1 H2 Hne Hr.
  destruct (Hd k1 c1 H1 k2 c2 H2) as [?|Hall]; [done|].
  rewrite Forall_forall in Hall. by apply Hall.
Qed.

Lemma cascade_keeps_invariants d id c :
  campgrounds d !! id = Some c ->
  refs_resolve d -> single_owner d ->
  let d' := {| campgrounds := delete id (campgrounds d);
               reviews := deleteMany (c_reviews c) (reviews d) |} in
  refs_resolve d' ∧ single_owner d'.
Proof.
  intros Hc Hrefs Hown d'. subst d'.
  unfold refs_resolve, single_owner. simpl. split.
  - intros k c2 [Hne Hk]%lookup_delete_Some.
    apply Forall_forall. intros r Hr. unfold deleteMany.
    rewrite lookup_foldr_delete_not_elem_of.
    + by eapply refs_resolve_lookup.
    + by eapply (single_owner_lookup d k id).
  - intros k1 c1 [_ H1]%lookup_delete_Some k2 c2 [_ H2]%lookup_delete_Some.
    exact (Hown k1 c1 H1 k2 c2 H2).
Qed.

(** C1.  Deleting a campground that is in the store removes its record
    and every review its list names: none of them is left in the review
    collection, the other reviews are untouched, and a store in which
    every reference resolved and every review had one owner is again such
    a store.  (The removal of the reviews is the step the spec prescribes
    for the absent model.) *)
Theorem delete_campground_removes_reviews v cs rs id b d c :
  campgrounds d !! id = Some c ->
  ∃ d',
    handle (application v cs rs) (request DELETE ["campgrounds"; id] b) (healthy d)
      = (Responded (Redirect ["campgrounds"]), healthy d')
    ∧ campgrounds d' = delete id (campgrounds d)
    ∧ campgrounds d' !! id = None
    ∧ (∀ r, r ∈ c_reviews c -> reviews d' !! r = None)
    ∧ (∀ r, r ∉ c_reviews c -> reviews d' !! r = reviews d !! r)
    ∧ (refs_resolve d -> single_owner d -> refs_resolve d' ∧ single_owner d').
Proof.
  intros Hc. eexists. split.
  { rewrite handle_destroy_campground, Hc. reflexivity. }
  simpl. split_and!.
  - done.
  - apply lookup_delete_eq.
  - intros r Hr. by apply lookup_foldr_delete.
  - intros r Hr. by apply lookup_foldr_delete_not_elem_of.
  - intros. by apply cascade_keeps_invariants.
Qed.

Lemma sample_store_refs_resolve : refs_resolve Sample.store.
Proof. apply (bool_decide_unpack _). vm_compute. exact I. Qed.

Lemma sample_store_single_owner : single_owner Sample.store.
Proof. apply (bool_decide_unpack _). vm_compute. exact I. Qed.

Lemma delete_campground_removes_reviews_witness :
  ∃ d',
    handle (application Routed Sample.campgroundSchema Sample.reviewSchema)
      (request DELETE ["campgrounds"; "c1"] no_body) (healthy Sample.store)
      = (Responded (Redirect ["campgrounds"]), healthy d')
    ∧ campgrounds d' !! "c1" = None
    ∧ reviews d' !! "r1" = None
    ∧ reviews d' !! "r2" = None
    ∧ is_Some (reviews d' !! "r3")
    ∧ refs_resolve d' ∧ single_owner d'.
Proof.
  destruct (delete_campground_removes_reviews Routed Sample.campgroundSchema
              Sample.reviewSchema "c1" no_body Sample.store
              {| c_id := "c1"; c_fields := Sample.pine_ridge;
                 c_reviews := ["r1"; "r2"] |} eq_refl)
    as (d' & Hrun & _ & Hgone & Hrem & Hkeep & Hinv).
  exists d'. split_and!.
  - exact Hrun.
  - exact Hgone.
  - apply Hrem. apply list_elem_of_here.
  - apply Hrem. apply list_elem_of_further, list_elem_of_here.
  - rewrite Hkeep. 
    + vm_compute. by eexists.
    + apply (bool_decide_unpack _). vm_compute. exact I.
  - apply Hinv; [apply sample_store_refs_resolve | apply sample_store_single_owner].
  - apply Hinv; [apply sample_store_refs_resolve | apply sample_store_single_owner].
Defined.

(** C9.  Whatever the id, and whether or not a campground has it,
    [DELETE /campgrounds/:id] answers with a redirect to [/campgrounds];
    a second delete of the same id answers the same and leaves the store
    as the first one left it. *)
Theorem delete_campground_idempotent v cs rs id b d :
  ∃ d1,
    handle (application v cs rs) (request DELETE ["campgrounds"; id] b) (healthy d)
      = (Responded (Redirect ["campgrounds"]), healthy d1)
    ∧ handle (application v cs rs) (request DELETE ["campgrounds"; id] b) (healthy d1)
      = (Responded (Redirect ["campgrounds"]), healthy d1).
Proof.
  eexists. split; [apply handle_destroy_campground|].
  rewrite handle_destroy_campground. simpl.
  by rewrite lookup_delete_eq, delete_delete_eq.
Qed.

(** ** The error-handling middleware *)

Lemma errorHandler_eq err req :
  errorHandler err req =
  Sent (Render (default 500 (statusCode err)) "error"
          (LErr {| message := Some (match message err with
                                    | Some m => if String.eqb m "" then default_message else m
                                    | None => default_message
                                    end);
                   statusCode := statusCode err |})).
Proof.
  unfold errorHandler, res_render, no_message. destruct err as [[m|] c]; simpl.
  - by destruct (String.eqb m "").
  - done.
Qed.

Lemma settle_error v cs rs req err w :
  settle (application v cs rs) req (Err err, w) =
  (Responded (Render (default 500 (statusCode err)) "error"
                (LErr {| message := shown_message err;
                         statusCode := statusCode err |})), w).
Proof.
  unfold settle, shown_message.
  replace (error_handler (application v cs rs)) with errorHandler by by destruct v.
  by rewrite !errorHandler_eq.
Qed.

Lemma shown_message_eq err :
  shown_message err =
  Some (match message err with
        | Some m => if String.eqb m "" then default_message else m
        | None => default_message
        end).
Proof. unfold shown_message. by rewrite errorHandler_eq. Qed.

Ltac walk v := destruct v; expose_stack; repeat route_miss.

(** ** Validation *)

Lemma handle_invalid_create v cs rs b w error :
  cs b = Some error ->
  handle (application v cs rs) (request POST ["campgrounds"] b) w =
  settle (application v cs rs) (incoming (request POST ["campgrounds"] b))
    (Err (ExpressError (joined_messages error) 400), w).
Proof.
  intros H. walk v.
  all: route_hit ltac:(apply run_validate_fail; exact H).
  all: reflexivity.
Qed.

Lemma handle_invalid_update v cs rs id b w error :
  cs b = Some error ->
  handle (application v cs rs) (request PUT ["campgrounds"; id] b) w =
  settle (application v cs rs) (incoming (request PUT ["campgrounds"; id] b))
    (Err (ExpressError (joined_messages error) 400), w).
Proof.
  intros H. walk v.
  all: route_hit ltac:(apply run_validate_fail; exact H).
  all: reflexivity.
Qed.

Lemma handle_invalid_review v cs rs id b w error :
  rs b = Some error ->
  handle (application v cs rs) (request POST ["campgrounds"; id; "reviews"] b) w =
  settle (application v cs rs)
    (incoming (request POST ["campgrounds"; id; "reviews"] b))
    (Err (ExpressError (joined_messages error) 400), w).
Proof.
  intros H. walk v.
  all: route_hit ltac:(apply run_validate_fail; exact H).
  all: reflexivity.
Qed.

(** C2.  When the schema rejects the payload, the validation middleware
    throws an error with status 400 whose message is the violation
    messages joined by commas; the stages after it are not run and the
    world is left as it was, and the three validated routes answer 400.
    When the schema accepts the payload, the middleware calls [next] and
    the pipeline goes on with the following stage. *)
Theorem validation_halts_or_passes v cs rs :
  (∀ req w ss error, cs (body req) = Some error ->
       validateCampground cs req w
         = (Raise (ExpressError (joined_messages error) 400), w)
       ∧ run_stages (Sync (validateCampground cs) :: ss) req w
         = (Err (ExpressError (joined_messages error) 400), w))
  ∧ (∀ req w ss error, rs (body req) = Some error ->
       validateReview rs req w
         = (Raise (ExpressError (joined_messages error) 400), w)
       ∧ run_stages (Sync (validateReview rs) :: ss) req w
         = (Err (ExpressError (joined_messages error) 400), w))
  ∧ (∀ req w ss, cs (body req) = None ->
       validateCampground cs req w = (Ok CallNext, w)
       ∧ run_stages (Sync (validateCampground cs) :: ss) req w
         = run_stages ss req w)
  ∧ (∀ req w ss, rs (body req) = None ->
       validateReview rs req w = (Ok CallNext, w)
       ∧ run_stages (Sync (validateReview rs) :: ss) req w
         = run_stages ss req w)
  ∧ (∀ b w error, cs b = Some error ->
       handle (application v cs rs) (request POST ["campgrounds"] b) w
         = (rejected error, w)
       ∧ ∀ id, handle (application v cs rs) (request PUT ["campgrounds"; id] b) w
               = (rejected error, w))
  ∧ (∀ b w error id, rs b = Some error ->
       handle (application v cs rs)
         (request POST ["campgrounds"; id; "reviews"] b) w
         = (rejected error, w)).
Proof.
  unfold validateCampground, validateReview. split_and!.
  - intros req w ss error H. split; [|by apply run_validate_fail].
    unfold validate. by rewrite H.
  - intros req w ss error H. split; [|by apply run_validate_fail].
    unfold validate. by rewrite H.
  - intros req w ss H. split; [|by apply run_validate_pass].
    unfold validate. by rewrite H.
  - intros req w ss H. split; [|by apply run_validate_pass].
    unfold validate. by rewrite H.
  - intros b w error H. split; [|intros id].
    + by rewrite (handle_invalid_create _ _ _ _ _ _ H), settle_error.
    + by rewrite (handle_invalid_update _ _ _ _ _ _ _ H), settle_error.
  - intros b w error id H.
    by rewrite (handle_invalid_review _ _ _ _ _ _ _ H), settle_error.
Qed.

Lemma validation_halts_or_passes_witness :
  handle (application Routed Sample.campgroundSchema Sample.reviewSchema)
    (request POST ["campgrounds"] Sample.bad_body) (healthy Sample.store)
  = (Responded (Render 400 "error"
       (LErr (ExpressError "title is required,price is required" 400))),
     healthy Sample.store)
  ∧ run_stages [Sync (validateReview Sample.reviewSchema);
                catchAsync ReviewRoutes.create]
      (incoming (request POST ["campgrounds"; "c1"; "reviews"] Sample.review_body))
      (healthy Sample.store)
    = run_stages [catchAsync ReviewRoutes.create]
        (incoming (request POST ["campgrounds"; "c1"; "reviews"] Sample.review_body))
        (healthy Sample.store).
Proof.
  destruct (validation_halts_or_passes Routed Sample.campgroundSchema
              Sample.reviewSchema) as (_ & _ & _ & Hpass & Happ & _).
  split.
  - exact (proj1 (Happ Sample.bad_body (healthy Sample.store)
                    {| details := [ {| d_message := "title is required" |};
                                    {| d_message := "price is required" |} ] |}
                    eq_refl)).
  - exact (proj2 (Hpass
      (incoming (request POST ["campgrounds"; "c1"; "reviews"] Sample.review_body))
      (healthy Sample.store) [catchAsync ReviewRoutes.create] eq_refl)).
Defined.

(** ** Rejections nobody catches *)

Lemma run_stages_sync ss req w e :
  forallb is_sync ss = true -> (run_stages ss req w).1 ≠ Done (Hung e).
Proof.
  revert w. induction ss as [|s ss IH]; intros w; [done|].
  destruct s as [h|h]; [|done]. simpl. intros Hss.
  destruct (h req w) as [[[r| |e']|e'] w']; simpl; try done.
  by apply IH.
Qed.

Lemma dispatch_sync rs req w e :
  forallb (fun r => forallb is_sync (r_stages r)) rs = true ->
  (dispatch rs req w).1 ≠ Done (Hung e).
Proof.
  revert w. induction rs as [|r rs IH]; intros w; [done|].
  simpl forallb. intros [Hr Hrs]%andb_prop. simpl.
  destruct (match_method _ _); [|by apply IH].
  destruct (match_path _ _) as [ps|]; [|by apply IH].
  pose proof (run_stages_sync (r_stages r) (with_params ps req) w e Hr) as Hrun.
  destruct (run_stages _ _ _) as [[res| |e'] w']; simpl in *; [done| |done].
  by apply IH.
Qed.

(** In the application that mounts the routers every stage is a plain
    function or is wrapped, so no request is left without an answer. *)
Lemma routed_never_hangs cs rs h w e :
  (handle (application Routed cs rs) h w).1 ≠ Hung e.
Proof.
  unfold handle. cbv zeta.
  destruct (middleware_error (application Routed cs rs) h) as [e0|];
    [by rewrite (settle_error Routed)|].
  pose proof (dispatch_sync (routes (application Routed cs rs))
                (prepared (application Routed cs rs) h) w e eq_refl) as Hd.
  destruct (dispatch (routes (application Routed cs rs))
              (prepared (application Routed cs rs) h) w) as [[res| |e'] w'].
  - cbn [settle fst] in *. congruence.
  - done.
  - by rewrite (settle_error Routed).
Qed.

(** C3 fails on the code.  The application that declares its routes
    itself gives the list handler to the framework unwrapped: when
    [Campground.find] rejects, the rejection is not forwarded to the error
    handler and the request gets no response.  The same route of the
    campgrounds router is wrapped and answers with the error page. *)
Theorem unwrapped_list_handler_hangs cs rs b d fs :
  handle (application Monolith cs rs) (request GET ["campgrounds"] b)
    {| db := d; faults := true :: fs |}
  = (Hung StoreError, {| db := d; faults := fs |})
  ∧ handle (application Routed cs rs) (request GET ["campgrounds"] b)
      {| db := d; faults := true :: fs |}
    = (Responded (Render 500 "error" (LErr StoreError)),
       {| db := d; faults := fs |})
  ∧ forallb (fun r => forallb is_sync (r_stages r))
      (defined_routes Monolith cs rs) = false
  ∧ forallb (fun r => forallb is_sync (r_stages r))
      (defined_routes Routed cs rs) = true.
Proof.
  split_and!; [| |done|done].
  - expose_stack. repeat route_miss.
    route_hit ltac:(by apply run_async_raise).
    reflexivity.
  - expose_stack. repeat route_miss.
    route_hit ltac:(by apply run_catchAsync_raise).
    reflexivity.
Qed.

(** ** Unknown identifiers *)

Lemma show_unknown req d :
  campgrounds d !! param "id" req = None ->
  CampgroundRoutes.show req (healthy d) =
  (Ok (CallNextErr (TypeError "Cannot read properties of null")), healthy d).
Proof.
  intros H. unfold CampgroundRoutes.show, Campground.findById_populate, bind.
  rewrite store_op_healthy. cbn [fst snd]. by rewrite H.
Qed.

Lemma update_unknown req d :
  campgrounds d !! param "id" req = None ->
  CampgroundRoutes.update req (healthy d) =
  (Raise (TypeError "Cannot read properties of null (reading '_id')"), healthy d).
Proof.
  intros H. unfold CampgroundRoutes.update, Campground.findByIdAndUpdate, bind.
  rewrite store_op_healthy. by rewrite H.
Qed.

Lemma new_form_miss id :
  id ≠ "new" ->
  match_segs [Lit "campgrounds"; Lit "new"] ["campgrounds"; id] = None.
Proof.
  intros H.
  change (match_segs [Lit "campgrounds"; Lit "new"] ["campgrounds"; id])
    with (if String.eqb "new" id then Some (@nil (string * string)) else None).
  destruct (String.eqb_spec "new" id); congruence.
Qed.

(** C4.  For an id that no campground has, the detail page and the
    update do not answer 404: the [null] the store returns is used as it
    is, the request fails and the error page is sent with status 500.
    (The update fails in the handler, on [campground._id]; the detail
    page fails in the view, which the spec says reads the campground.) *)
Theorem unknown_id_answers_500 v cs rs id b d :
  campgrounds d !! id = None ->
  (id ≠ "new" ->
   handle (application v cs rs) (request GET ["campgrounds"; id] b) (healthy d)
   = (Responded (Render 500 "error"
        (LErr (TypeError "Cannot read properties of null"))), healthy d))
  ∧ (cs b = None ->
     handle (application v cs rs) (request PUT ["campgrounds"; id] b) (healthy d)
     = (Responded (Render 500 "error"
          (LErr (TypeError "Cannot read properties of null (reading '_id')"))),
        healthy d)).
Proof.
  intros Hid. split.
  - intros Hnew. walk v.
    all: rewrite dispatch_miss_path by (by apply new_form_miss).
    all: repeat route_miss.
    all: route_hit ltac:(by apply run_catchAsync_next_err, show_unknown).
    all: reflexivity.
  - intros Hb. walk v.
    all: route_hit ltac:(etrans; [apply run_validate_pass; exact Hb|];
                         by apply run_catchAsync_raise, update_unknown).
    all: reflexivity.
Qed.

Lemma unknown_id_answers_500_witness :
  status_of (Render 500 "error" (LErr (TypeError "Cannot read properties of null"))) ≠ 404
  ∧ handle (application Monolith Sample.campgroundSchema Sample.reviewSchema)
      (request GET ["campgrounds"; "c9"] no_body) (healthy Sample.store)
    = (Responded (Render 500 "error"
         (LErr (TypeError "Cannot read properties of null"))),
       healthy Sample.store)
  ∧ handle (application Monolith Sample.campgroundSchema Sample.reviewSchema)
      (request PUT ["campgrounds"; "c9"] Sample.campground_body)
      (healthy Sample.store)
    = (Responded (Render 500 "error"
         (LErr (TypeError "Cannot read properties of null (reading '_id')"))),
       healthy Sample.store).
Proof.
  split; [done|].
  split.
  - apply (unknown_id_answers_500 Monolith Sample.campgroundSchema
             Sample.reviewSchema "c9" no_body Sample.store eq_refl).
    by intros [=].
  - by apply (unknown_id_answers_500 Monolith Sample.campgroundSchema
                Sample.reviewSchema "c9" Sample.campground_body Sample.store eq_refl).
Defined.

(** C5.  An error that reaches the error-handling middleware is answered
    with the error view.  The status is the error's [statusCode], and 500
    when it has none; the message shown is the error's own, and
    "Oh No, Something Went Wrong!" when it has none (or an empty one). *)
Theorem error_presenter_defaults v cs rs req err w :
  ∃ status msg,
    errorHandler err req
      = Sent (Render status "error"
                (LErr {| message := Some msg; statusCode := statusCode err |}))
    ∧ settle (application v cs rs) req (Err err, w)
      = (Responded (Render status "error"
                      (LErr {| message := Some msg; statusCode := statusCode err |})), w)
    ∧ (∀ c, statusCode err = Some c -> status = c)
    ∧ (statusCode err = None -> status = 500)
    ∧ (message err = None -> msg = "Oh No, Something Went Wrong!")
    ∧ (message err = Some "" -> msg = "Oh No, Something Went Wrong!")
    ∧ (∀ m, message err = Some m -> m ≠ "" -> msg = m).
Proof.
  eexists _, _. split; [apply errorHandler_eq|]. split.
  { by rewrite settle_error, shown_message_eq. }
  split_and!.
  - by intros c ->.
  - by intros ->.
  - by intros ->.
  - by intros ->.
  - intros m -> Hm. by destruct (String.eqb_spec m "").
Qed.

Lemma error_presenter_defaults_witness :
  settle (application Routed Sample.campgroundSchema Sample.reviewSchema)
    (incoming (request GET [] no_body))
    (Err {| message := None; statusCode := None |}, healthy Sample.store)
  = (Responded (Render 500 "error"
       (LErr {| message := Some "Oh No, Something Went Wrong!";
                statusCode := None |})), healthy Sample.store).
Proof.
  destruct (error_presenter_defaults Routed Sample.campgroundSchema
              Sample.reviewSchema (incoming (request GET [] no_body))
              {| message := None; statusCode := None |} (healthy Sample.store))
    as (status & msg & _ & Hsettle & _ & Hstatus & Hmsg & _).
  rewrite Hsettle, (Hstatus eq_refl), (Hmsg eq_refl). reflexivity.
Defined.

(** ** Undefined routes *)













(** ** Creating a campground *)

Lemma create_healthy req d :
  let c := {| c_id := new_id d;
              c_fields := default ∅ (b_campground (body req));
              c_reviews := [] |} in
  CampgroundRoutes.create req (healthy d) =
  (Ok (Sent (Redirect ["campgrounds"; new_id d])),
   healthy {| campgrounds := <[new_id d := c]> (campgrounds d);
              reviews := reviews d |}).
Proof.
  intros c. unfold CampgroundRoutes.create, Campground.new, Campground.save, bind.
  by rewrite store_op_healthy.
Qed.

(** C7.  For a payload the campground schema accepts, [POST /campgrounds]
    stores one new record, built from the payload, under an identifier no
    record had, leaves every other record as it was, and redirects to
    [/campgrounds/<that identifier>]. *)
Theorem create_campground_persists_one v cs rs b d :
  cs b = None ->
  ∃ c d',
    handle (application v cs rs) (request POST ["campgrounds"] b) (healthy d)
      = (Responded (Redirect ["campgrounds"; c_id c]), healthy d')
    ∧ c_fields c = default ∅ (b_campground b)
    ∧ c_reviews c = []
    ∧ campgrounds d !! c_id c = None
    ∧ campgrounds d' = <[c_id c := c]> (campgrounds d)
    ∧ size (campgrounds d') = S (size (campgrounds d))
    ∧ reviews d' = reviews d.
Proof.
  intros Hb.
  exists {| c_id := new_id d; c_fields := default ∅ (b_campground b);
            c_reviews := [] |}.
  eexists. split.
  { walk v.
    all: route_hit ltac:(etrans; [apply run_validate_pass; exact Hb|];
                         apply run_catchAsync_sent, create_healthy).
    all: reflexivity. }
  simpl. split_and!; try done.
  - apply new_id_fresh_campground.
  - apply map_size_insert_None, new_id_fresh_campground.
Qed.

Lemma create_campground_persists_one_witness :
  ∃ c d',
    handle (application Routed Sample.campgroundSchema Sample.reviewSchema)
      (request POST ["campgrounds"] Sample.campground_body) (healthy Sample.store)
      = (Responded (Redirect ["campgrounds"; c_id c]), healthy d')
    ∧ c_fields c = Sample.pine_ridge
    ∧ campgrounds d' = <[c_id c := c]> (campgrounds Sample.store)
    ∧ size (campgrounds d') = 3%nat.
Proof.
  destruct (create_campground_persists_one Routed Sample.campgroundSchema
              Sample.reviewSchema Sample.campground_body Sample.store eq_refl)
    as (c & d' & Hrun & Hf & _ & _ & Hd' & Hsize & _).
  exists c, d'. split_and!; [exact Hrun | exact Hf | exact Hd' | exact Hsize].
Defined.

(** ** Deleting a review *)

Lemma destroy_review_healthy req d :
  let id := param "id" req in
  let reviewId := param "reviewId" req in
  ReviewRoutes.destroy req (healthy d) =
  (Ok (Sent (Redirect ["campgrounds"; id])),
   healthy {| campgrounds :=
                match campgrounds d !! id with
                | Some c => <[id := apply_update (PullReview reviewId) c]> (campgrounds d)
                | None => campgrounds d
                end;
              reviews := delete reviewId (reviews d) |}).
Proof.
  intros id reviewId.
  unfold ReviewRoutes.destroy, Campground.findByIdAndUpdate,
    Review.findByIdAndDelete, bind.
  fold id reviewId. rewrite store_op_healthy.
  destruct (campgrounds d !! id) as [c|] eqn:Hc; cbn [fst snd];
    rewrite store_op_healthy; cbn [fst snd campgrounds reviews].
  - done.
  - by destruct d.
Qed.

Lemma handle_destroy_review v cs rs id reviewId b d :
  handle (application v cs rs)
    (request DELETE ["campgrounds"; id; "reviews"; reviewId] b) (healthy d) =
  (Responded (Redirect ["campgrounds"; id]),
   healthy {| campgrounds :=
                match campgrounds d !! id with
                | Some c => <[id := apply_update (PullReview reviewId) c]> (campgrounds d)
                | None => campgrounds d
                end;
              reviews := delete reviewId (reviews d) |}).
Proof.
  walk v.
  all: route_hit ltac:(apply run_catchAsync_sent, destroy_review_healthy).
  all: reflexivity.
Qed.

(** C8 as stated fails: when the review id is not in the campground's
    list, the list keeps its length.  Here review [r3], which campground
    [c2] owns, is deleted through campground [c1]. *)
Lemma delete_review_unlisted_keeps_length :
  ¬ review_list_shrinks_by_one
      (application Routed Sample.campgroundSchema Sample.reviewSchema)
      "c1" "r3" Sample.store.
Proof.
  intros (c & c' & d' & Hc & Hrun & Hc' & _ & _ & Hlen).
  unfold delete_review_request in Hrun.
  rewrite handle_destroy_review in Hrun.
  injection Hrun as <-.
  vm_compute in Hc. injection Hc as <-.
  vm_compute in Hc'. injection Hc' as <-.
  vm_compute in Hlen. discriminate Hlen.
Qed.

(** The same request leaves campground [c2] with a reference to a review
    that is no longer stored. *)
Lemma delete_review_through_other_campground_dangles :
  ∃ d',
    handle (application Routed Sample.campgroundSchema Sample.reviewSchema)
      (delete_review_request "c1" "r3") (healthy Sample.store)
      = (Responded (Redirect ["campgrounds"; "c1"]), healthy d')
    ∧ refs_resolve Sample.store
    ∧ ¬ refs_resolve d'.
Proof.
  eexists. split; [apply handle_destroy_review|].
  split; [apply sample_store_refs_resolve|].
  intros H. apply (bool_decide_pack _) in H. vm_compute in H. exact H.
Qed.

(** C8, amended.  [DELETE /campgrounds/:id/reviews/:reviewId] redirects
    to the campground's page, deletes the review record, and takes every
    occurrence of the review id out of the list of the campground [id]
    (when there is such a campground; no other record changes).  The list
    gets shorter by the number of occurrences: by exactly one when the id
    was listed once, and not at all when it was not listed. *)
Theorem delete_review_pulls_occurrences v cs rs id reviewId b d :
  ∃ d',
    handle (application v cs rs)
      (request DELETE ["campgrounds"; id; "reviews"; reviewId] b) (healthy d)
      = (Responded (Redirect ["campgrounds"; id]), healthy d')
    ∧ reviews d' = delete reviewId (reviews d)
    ∧ reviews d' !! reviewId = None
    ∧ (∀ k, k ≠ id -> campgrounds d' !! k = campgrounds d !! k)
    ∧ (campgrounds d !! id = None -> campgrounds d' = campgrounds d)
    ∧ (∀ c, campgrounds d !! id = Some c ->
         ∃ c', campgrounds d' !! id = Some c'
           ∧ c_id c' = c_id c ∧ c_fields c' = c_fields c
           ∧ c_reviews c' = pull reviewId (c_reviews c)
           ∧ (reviewId ∉ c_reviews c')
           ∧ (length (c_reviews c') + occurrences reviewId (c_reviews c)
              = length (c_reviews c))%nat
           ∧ (occurrences reviewId (c_reviews c) = 1%nat ->
              S (length (c_reviews c')) = length (c_reviews c))
           ∧ (reviewId ∉ c_reviews c -> c_reviews c' = c_reviews c)).
Proof.
  eexists. split; [apply handle_destroy_review|].
  cbn [campgrounds reviews]. split_and!.
  - done.
  - apply lookup_delete_eq.
  - intros k Hk. destruct (campgrounds d !! id); [|done].
    by rewrite lookup_insert_ne.
  - by intros ->.
  - intros c ->. eexists. split; [apply lookup_insert_eq|].
    cbn [apply_update c_id c_fields c_reviews]. split_and!; try done.
    + apply pull_not_elem.
    + apply length_pull.
    + intros H1. pose proof (length_pull reviewId (c_reviews c)). lia.
    + apply pull_absent.
Qed.

Lemma delete_review_pulls_occurrences_witness :
  ∃ d',
    handle (application Routed Sample.campgroundSchema Sample.reviewSchema)
      (request DELETE ["campgrounds"; "c1"; "reviews"; "r2"] no_body)
      (healthy Sample.store)
      = (Responded (Redirect ["campgrounds"; "c1"]), healthy d')
    ∧ reviews d' !! "r2" = None
    ∧ ∃ c', campgrounds d' !! "c1" = Some c' ∧ c_reviews c' = ["r1"]
            ∧ S (length (c_reviews c')) = 2%nat.
Proof.
  destruct (delete_review_pulls_occurrences Routed Sample.campgroundSchema
              Sample.reviewSchema "c1" "r2" no_body Sample.store)
    as (d' & Hrun & _ & Hgone & _ & _ & Hc).
  exists d'. split; [exact Hrun|]. split; [exact Hgone|].
  destruct (Hc {| c_id := "c1"; c_fields := Sample.pine_ridge;
                  c_reviews := ["r1"; "r2"] |} eq_refl)
    as (c' & Hc' & _ & _ & Hl & _ & _ & Hone & _).
  exists c'. split; [exact Hc'|]. split; [exact Hl|].
  exact (Hone eq_refl).
Defined.

(** ** Creating a review *)

Lemma add_review_healthy req d c :
  campgrounds d !! param "id" req = Some c ->
  let review := {| r_id := new_id d; r_fields := default ∅ (b_review (body req)) |} in
  let c' := {| c_id := c_id c; c_fields := c_fields c;
               c_reviews := (c_reviews c ++ [new_id d])%list |} in
  ReviewRoutes.add_review req (healthy d) =
  (Ok c', healthy {| campgrounds := <[c_id c := c']> (campgrounds d);
                     reviews := <[new_id d := review]> (reviews d) |}).
Proof.
  intros Hc review c'.
  unfold ReviewRoutes.add_review, Campground.findById, Review.new, Review.save,
    Campground.save, bind.
  rewrite store_op_healthy. cbn [fst snd]. rewrite Hc.
  rewrite store_op_healthy. cbn [fst snd].
  by rewrite store_op_healthy.
Qed.

Lemma no_flash v cs rs h : has_flash (prepared (application v cs rs) h) = false.
Proof. destruct v, h as [[] p b [m|] [e|]]; reflexivity. Qed.

(** C10.  In the application that mounts the routers, a valid review
    posted to an existing campground is saved, and so is the campground
    with the new reference at the end of its list; then [req.flash], which
    no middleware installs, is called: the handler fails, the client gets
    the error page with status 500 and no redirect, and what was saved
    stays saved. *)
Theorem review_create_fails_after_saving cs rs id b d c :
  rs b = None ->
  campgrounds d !! id = Some c ->
  ∃ review c' d',
    handle (application Routed cs rs)
      (request POST ["campgrounds"; id; "reviews"] b) (healthy d)
      = (Responded (Render 500 "error"
           (LErr (TypeError "req.flash is not a function"))), healthy d')
    ∧ (∀ h, has_flash (prepared (application Routed cs rs) h) = false)
    ∧ reviews d !! r_id review = None
    ∧ r_fields review = default ∅ (b_review b)
    ∧ c' = {| c_id := c_id c; c_fields := c_fields c;
              c_reviews := (c_reviews c ++ [r_id review])%list |}
    ∧ reviews d' = <[r_id review := review]> (reviews d)
    ∧ campgrounds d' = <[c_id c := c']> (campgrounds d)
    ∧ reviews d' !! r_id review = Some review
    ∧ campgrounds d' !! c_id c = Some c'.
Proof.
  intros Hb Hc.
  exists {| r_id := new_id d; r_fields := default ∅ (b_review b) |}.
  eexists. eexists. split.
  { expose_stack. repeat route_miss.
    route_hit ltac:(etrans; [apply run_validate_pass; exact Hb|];
                    apply run_catchAsync_raise;
                    unfold ReviewRoutes.create, bind;
                    erewrite add_review_healthy by exact Hc; reflexivity).
    reflexivity. }
  cbn [campgrounds reviews r_id r_fields]. split_and!; try done.
  - intros h. apply (no_flash Routed).
  - apply new_id_fresh_review.
  - apply lookup_insert_eq.
  - apply lookup_insert_eq.
Qed.

Lemma review_create_fails_after_saving_witness :
  ∃ review c' d',
    handle (application Routed Sample.campgroundSchema Sample.reviewSchema)
      (request POST ["campgrounds"; "c2"; "reviews"] Sample.review_body)
      (healthy Sample.store)
      = (Responded (Render 500 "error"
           (LErr (TypeError "req.flash is not a function"))), healthy d')
    ∧ r_fields review = Sample.great
    ∧ c_reviews c' = ["r3"; r_id review]
    ∧ reviews d' !! r_id review = Some review
    ∧ campgrounds d' !! "c2" = Some c'.
Proof.
  destruct (review_create_fails_after_saving Sample.campgroundSchema
              Sample.reviewSchema "c2" Sample.review_body Sample.store
              {| c_id := "c2"; c_fields := Sample.pine_ridge; c_reviews := ["r3"] |}
              eq_refl eq_refl)
    as (review & c' & d' & Hrun & _ & _ & Hf & Hc' & _ & _ & Hr & Hc).
  exists review, c', d'. split_and!; [exact Hrun | exact Hf | | exact Hr | exact Hc].
  by rewrite Hc'.
Defined.

(** The same request on the application that declares the route itself,
    where the handler does not call [req.flash], is answered with the
    redirect. *)
Lemma review_create_redirects_monolith cs rs id b d c :
  rs b = None ->
  campgrounds d !! id = Some c ->
  ∃ d',
    handle (application Monolith cs rs)
      (request POST ["campgrounds"; id; "reviews"] b) (healthy d)
    = (Responded (Redirect ["campgrounds"; c_id c]), healthy d').
Proof.
  intros Hb Hc. eexists. expose_stack. repeat route_miss.
  route_hit ltac:(etrans; [apply run_validate_pass; exact Hb|];
                  apply run_catchAsync_sent;
                  unfold ReviewRoutes.create_app, bind;
                  erewrite add_review_healthy by exact Hc; reflexivity).
  reflexivity.
Qed.

(** * Further properties of the handlers and of the route stack *)

(** ** Computations under an arbitrary fault schedule *)

Lemma store_op_cases {A} (f : DB -> A * DB) (w : World) :
  store_op f w = (Raise StoreError, {| db := db w; faults := tail (faults w) |})
  ∨ store_op f w = (Ok (f (db w)).1,
                    {| db := (f (db w)).2; faults := tail (faults w) |}).
Proof.
  unfold store_op. destruct (faults w) as [|[] fs]; destruct (f (db w)); auto.
Qed.

Lemma keeps_ret P {A} (a : A) : keeps P (ret a).
Proof. by intros w. Qed.

Lemma keeps_throw P {A} e : keeps P (@throw A e).
Proof. by intros w. Qed.

Lemma keeps_bind P {A B} (m : Js A) (k : A -> Js B) :
  keeps P m -> (∀ a, keeps P (k a)) -> keeps P (bind m k).
Proof.
  intros Hm Hk w Hw. unfold bind. specialize (Hm w Hw).
  destruct (m w) as [[a|e] w']; [by apply Hk|done].
Qed.

Lemma keeps_catch P {A} (m : Js A) (h : JsError -> Js A) :
  keeps P m -> (∀ e, keeps P (h e)) -> keeps P (catch m h).
Proof.
  intros Hm Hh w Hw. unfold catch. specialize (Hm w Hw).
  destruct (m w) as [[a|e] w']; [done|by apply Hh].
Qed.

Lemma keeps_store_op P {A} (f : DB -> A * DB) :
  (∀ d, P d -> P (f d).2) -> keeps P (store_op f).
Proof.
  intros Hf w Hw. destruct (store_op_cases f w) as [-> | ->]; simpl; auto.
Qed.

Lemma keeps_read P {A} (g : DB -> A) : keeps P (store_op (fun d => (g d, d))).
Proof. by apply keeps_store_op. Qed.

Lemma stage_keeps_catchAsync P fn :
  (∀ req, keeps P (fn req)) -> stage_keeps P (catchAsync fn).
Proof.
  intros H req. simpl. apply keeps_catch; [done|]. intros e. apply keeps_ret.
Qed.

Lemma run_stages_keeps P ss req w :
  Forall (stage_keeps P) ss -> P (db w) -> P (db (run_stages ss req w).2).
Proof.
  intros Hss. revert w. induction Hss as [|s ss Hs _ IH]; intros w Hw; [done|].
  specialize (Hs req w Hw).
  destruct s as [h|h]; simpl in *;
    destruct (h req w) as [[[r| |e]|e] w']; simpl in *; auto.
Qed.

Lemma dispatch_keeps P rs req w :
  Forall (fun r => match_method (r_method r) (method req) = true ->
                   Forall (stage_keeps P) (r_stages r)) rs ->
  P (db w) -> P (db (dispatch rs req w).2).
Proof.
  intros Hrs. revert w. induction Hrs as [|r rs Hr _ IH]; intros w Hw; [done|].
  simpl. destruct (match_method _ _) eqn:Hm; [|by apply IH].
  destruct (match_path _ _) as [ps|]; [|by apply IH].
  pose proof (run_stages_keeps P (r_stages r) (with_params ps req) w (Hr eq_refl) Hw)
    as Hrun.
  destruct (run_stages _ _ _) as [[res| |e] w']; simpl in *; auto.
Qed.

Lemma settle_world app req out : (settle app req out).2 = out.2.
Proof.
  destruct out as [[r| |e] w]; simpl; [done|done|].
  by destruct (error_handler app e req).
Qed.

Lemma handle_keeps P v cs rs h w :
  Forall (fun r => match_method (r_method r)
                     (method (prepared (application v cs rs) h)) = true ->
                   Forall (stage_keeps P) (r_stages r))
    (routes (application v cs rs)) ->
  P (db w) -> P (db (handle (application v cs rs) h w).2).
Proof.
  intros Hrs Hw. unfold handle. cbv zeta.
  destruct (middleware_error (application v cs rs) h); rewrite settle_world;
    [done|].
  by apply dispatch_keeps.
Qed.

(** ** Handlers that only read *)

Lemma keeps_validate P schema req : keeps P (validate schema req).
Proof. intros w. unfold validate. by destruct (schema (body req)). Qed.

Lemma keeps_notFound P req : keeps P (notFound req).
Proof. by intros w. Qed.

Lemma keeps_sendOptions P rs0 req : keeps P (sendOptions rs0 req).
Proof. by intros w. Qed.

Lemma keeps_home P req : keeps P (home req).
Proof. by intros w. Qed.

Lemma keeps_newForm P req : keeps P (CampgroundRoutes.newForm req).
Proof. by intros w. Qed.

Lemma keeps_index P req : keeps P (CampgroundRoutes.index req).
Proof.
  apply keeps_bind; [apply keeps_read|]. intros cs. apply keeps_ret.
Qed.

Lemma keeps_show P req : keeps P (CampgroundRoutes.show req).
Proof.
  apply keeps_bind; [apply keeps_read|]. intros c. apply keeps_ret.
Qed.

Lemma keeps_edit P req : keeps P (CampgroundRoutes.edit req).
Proof.
  apply keeps_bind; [apply keeps_read|]. intros c. apply keeps_ret.
Qed.

Create HintDb keeps discriminated.
#[local] Hint Resolve keeps_validate keeps_notFound keeps_sendOptions keeps_home
  keeps_newForm keeps_index keeps_show keeps_edit : keeps.

(** Unfolds the route table of either application into an explicit list
    and splits a [Forall] over it into one goal per stage of a route the
    request's method selects. *)
Ltac per_stage :=
  cbv [routes application single_app router_app single_app_routes
       router_app_stack mount prefixed campgrounds_router reviews_router route
       catch_all fmap list_fmap option_fmap option_map app r_method r_path
       r_stages];
  repeat (apply Forall_cons; split;
          [cbn [r_method r_stages]; intros Hsel;
           first [ discriminate Hsel
                 | repeat (apply Forall_cons; split;
                           [first [apply stage_keeps_catchAsync | intros ?; cbn [stage_handler]]|]);
                   try apply Forall_nil ]|]);
  try apply Forall_nil.

(** X3.  A [GET] (or [HEAD]) request never changes the collections,
    whatever the path, the application and the fault schedule. *)
Theorem get_requests_read_only v cs rs h w :
  method (prepared (application v cs rs) h) = GET
  ∨ method (prepared (application v cs rs) h) = HEAD ->
  db (handle (application v cs rs) h w).2 = db w.
Proof.
  intros Hm.
  apply (handle_keeps (fun d => d = db w)); [|done].
  destruct Hm as [-> | ->]; destruct v; per_stage; intros; eauto with keeps.
Qed.

(** ** Records stay under their own identifier *)

Lemma keeps_ids_save_campground c : keeps ids_match (Campground.save c).
Proof.
  apply keeps_store_op. intros d [Hc Hr]. split; [|done].
  by apply map_Forall_insert_2.
Qed.

Lemma keeps_ids_save_review r : keeps ids_match (Review.save r).
Proof.
  apply keeps_store_op. intros d [Hc Hr]. split; [done|].
  by apply map_Forall_insert_2.
Qed.

Lemma keeps_ids_update id u : keeps ids_match (Campground.findByIdAndUpdate id u).
Proof.
  apply keeps_store_op. intros d [Hc Hr].
  destruct (campgrounds d !! id) as [c|] eqn:Hid; [|done].
  split; [|done]. apply map_Forall_insert_2; [|done].
  specialize (Hc id c Hid). by destruct u.
Qed.

Lemma keeps_ids_delete_campground id :
  keeps ids_match (Campground.findByIdAndDelete id).
Proof.
  apply keeps_bind.
  { apply keeps_store_op. intros d [Hc Hr]. split; [|done].
    by apply map_Forall_delete. }
  intros doc. apply keeps_bind; [|intros; apply keeps_ret].
  destruct doc as [c|]; [|apply keeps_ret].
  apply keeps_store_op. intros d [Hc Hr]. split; [done|].
  simpl. unfold deleteMany. by apply map_Forall_foldr_delete.
Qed.

Lemma keeps_ids_delete_review id : keeps ids_match (Review.findByIdAndDelete id).
Proof.
  apply keeps_store_op. intros d [Hc Hr]. split; [done|].
  by apply map_Forall_delete.
Qed.

Lemma keeps_ids_create req : keeps ids_match (CampgroundRoutes.create req).
Proof.
  apply keeps_bind; [by intros w|]. intros c.
  apply keeps_bind; [apply keeps_ids_save_campground|]. intros. apply keeps_ret.
Qed.

Lemma keeps_ids_update_route req : keeps ids_match (CampgroundRoutes.update req).
Proof.
  apply keeps_bind; [apply keeps_ids_update|].
  intros [c|]; [apply keeps_ret|apply keeps_throw].
Qed.

Lemma keeps_ids_destroy req : keeps ids_match (CampgroundRoutes.destroy req).
Proof.
  apply keeps_bind; [apply keeps_ids_delete_campground|]. intros. apply keeps_ret.
Qed.

Lemma keeps_ids_add_review req : keeps ids_match (ReviewRoutes.add_review req).
Proof.
  apply keeps_bind; [apply keeps_read|]. intros campground.
  apply keeps_bind; [by intros w|]. intros review.
  destruct campground as [c|]; [|apply keeps_throw].
  apply keeps_bind; [apply keeps_ids_save_review|]. intros _.
  apply keeps_bind; [apply keeps_ids_save_campground|]. intros _. apply keeps_ret.
Qed.

Lemma keeps_ids_review_create req : keeps ids_match (ReviewRoutes.create req).
Proof.
  apply keeps_bind; [apply keeps_ids_add_review|]. intros c.
  apply keeps_bind; [|intros; apply keeps_ret].
  unfold req_flash. destruct (has_flash req); [apply keeps_ret|apply keeps_throw].
Qed.

Lemma keeps_ids_review_create_app req : keeps ids_match (ReviewRoutes.create_app req).
Proof.
  apply keeps_bind; [apply keeps_ids_add_review|]. intros c. apply keeps_ret.
Qed.

Lemma keeps_ids_review_destroy req : keeps ids_match (ReviewRoutes.destroy req).
Proof.
  apply keeps_bind; [apply keeps_ids_update|]. intros _.
  apply keeps_bind; [apply keeps_ids_delete_review|]. intros _. apply keeps_ret.
Qed.

#[local] Hint Resolve keeps_ids_create keeps_ids_update_route keeps_ids_destroy
  keeps_ids_review_create keeps_ids_review_create_app keeps_ids_review_destroy
  : keeps.

(** X4.  If every record is stored under its own [_id], it is still so
    after any request, to either application, under any fault schedule. *)
Theorem every_request_keeps_ids v cs rs h w :
  ids_match (db w) ->
  ids_match (db (handle (application v cs rs) h w).2).
Proof.
  apply handle_keeps.
  destruct v; per_stage; intros; eauto with keeps.
Qed.

(** ** Where a request can be left unanswered *)

Lemma dispatch_hung rs req w e :
  (dispatch rs req w).1 = Done (Hung e) ->
  ∃ r, r ∈ rs ∧ route_matches r req = true
       ∧ forallb is_sync (r_stages r) = false.
Proof.
  revert w. induction rs as [|r rs IH]; intros w; [done|]. simpl.
  assert (∀ w0, (dispatch rs req w0).1 = Done (Hung e) ->
            ∃ r0, r0 ∈ r :: rs ∧ route_matches r0 req = true
                  ∧ forallb is_sync (r_stages r0) = false) as IH'.
  { intros w0 [r0 (? & ? & ?)]%IH. exists r0. split; [by right|done]. }
  destruct (match_method _ _) eqn:Hm; [|by apply IH'].
  destruct (match_path _ _) as [ps|] eqn:Hp; [|by apply IH'].
  pose proof (run_stages_sync (r_stages r) (with_params ps req) w e) as Hsync.
  destruct (run_stages _ _ _) as [[res| |e'] w']; simpl in *; [| by apply IH' |done].
  intros Hres. exists r. split; [by left|]. split.
  - unfold route_matches. by rewrite Hm, Hp.
  - destruct (forallb is_sync (r_stages r)); [|done]. by destruct Hsync.
Qed.

Lemma match_single_literal s p ps :
  match_segs [Lit s] p = Some ps -> p = [s].
Proof.
  destruct p as [|x [|y p]]; simpl; [done| |].
  - destruct (String.eqb_spec s x); [by subst|done].
  - by destruct (String.eqb s x).
Qed.

(** X2.  In the application that declares its routes itself, the only
    request that can be left without a response is the list request,
    [GET] (or [HEAD]) [/campgrounds]. *)
Theorem monolith_hangs_only_on_list cs rs h w e w' :
  handle (application Monolith cs rs) h w = (Hung e, w') ->
  path (prepared (application Monolith cs rs) h) = ["campgrounds"]
  ∧ (method (prepared (application Monolith cs rs) h) = GET
     ∨ method (prepared (application Monolith cs rs) h) = HEAD).
Proof.
  unfold handle. cbv zeta.
  set (req := prepared (application Monolith cs rs) h).
  destruct (middleware_error (application Monolith cs rs) h) as [e0|];
    [by rewrite (settle_error Monolith)|].
  destruct (dispatch (routes (application Monolith cs rs)) req w)
    as [[res| |e'] w0] eqn:Hd;
    [|done|by rewrite (settle_error Monolith)].
  cbn [settle]. intros [= -> ->].
  destruct (dispatch_hung (routes (application Monolith cs rs)) req w e)
    as (r & Hr & Hmatch & Hasync); [by rewrite Hd|].
  cbv [routes application single_app single_app_routes route catch_all app] in Hr.
  repeat (apply elem_of_cons in Hr as [->|Hr]); try done.
  - apply andb_prop in Hmatch as [Hm Hp]. cbn [r_method r_path] in *. split.
    + change (match_path (Some [Lit "campgrounds"]) (path req))
        with (match_segs [Lit "campgrounds"] (path req)) in Hp.
      destruct (match_segs [Lit "campgrounds"] (path req)) as [ps|] eqn:Hps; [|done].
      by eapply match_single_literal.
    + apply orb_prop in Hm as [Hm|Hm]; apply bool_decide_eq_true in Hm; auto.
  - by apply elem_of_nil in Hr.
Qed.

Lemma monolith_list_rejection cs rs b d fs :
  handle (application Monolith cs rs) (request GET ["campgrounds"] b)
    {| db := d; faults := true :: fs |}
  = (Hung StoreError, {| db := d; faults := fs |}).
Proof.
  expose_stack. repeat route_miss.
  route_hit ltac:(by apply run_async_raise).
  reflexivity.
Qed.

Lemma monolith_hangs_only_on_list_witness :
  path (prepared (application Monolith Sample.campgroundSchema Sample.reviewSchema)
          (request GET ["campgrounds"] no_body)) = ["campgrounds"]
  ∧ (GET = GET ∨ GET = HEAD).
Proof.
  exact (monolith_hangs_only_on_list Sample.campgroundSchema Sample.reviewSchema
           (request GET ["campgrounds"] no_body)
           {| db := Sample.store; faults := [true] |}
           StoreError {| db := Sample.store; faults := [] |}
           (monolith_list_rejection _ _ _ _ _)).
Defined.

(** ** References under writes *)

Lemma refs_resolve_alt d :
  refs_resolve d ↔
  ∀ k c r, campgrounds d !! k = Some c -> r ∈ c_reviews c ->
           is_Some (reviews d !! r).
Proof.
  split.
  - intros H k c r Hk Hr. by eapply refs_resolve_lookup.
  - intros H k c Hk. simpl. apply Forall_forall. intros r Hr. by apply (H k c r).
Qed.

Lemma single_owner_alt d :
  single_owner d ↔
  ∀ k1 k2 c1 c2 r, campgrounds d !! k1 = Some c1 -> campgrounds d !! k2 = Some c2 ->
                   k1 ≠ k2 -> r ∈ c_reviews c1 -> r ∉ c_reviews c2.
Proof.
  split.
  - intros H k1 k2 c1 c2 r H1 H2 Hne Hr. by eapply (single_owner_lookup d k1 k2).
  - intros H k1 c1 H1 k2 c2 H2. simpl.
    destruct (decide (k1 = k2)) as [|Hne]; [by left|right].
    apply Forall_forall. intros r Hr. by apply (H k1 k2 c1 c2 r).
Qed.

Lemma only_listed_by_alt id reviewId d :
  only_listed_by id reviewId d ↔
  ∀ k c, campgrounds d !! k = Some c -> k ≠ id -> reviewId ∉ c_reviews c.
Proof.
  split.
  - intros H k c Hk Hne. by destruct (H k c Hk).
  - intros H k c Hk. simpl. destruct (decide (k = id)); [by left|right; eauto].
Qed.

(** Storing a review keeps a well-formed store well-formed. *)
Lemma well_formed_insert_review d r :
  well_formed d ->
  well_formed {| campgrounds := campgrounds d;
                 reviews := <[r_id r := r]> (reviews d) |}.
Proof.
  intros ([Hc Hr] & Hrefs & Hown). split_and!; [|  |done].
  - split; [done|]. by apply map_Forall_insert_2.
  - apply refs_resolve_alt. cbn [campgrounds reviews]. intros k c x Hk Hx. simpl.
    destruct (decide (r_id r = x)) as [->|Hne].
    + rewrite lookup_insert_eq. by eexists.
    + rewrite lookup_insert_ne by done. by eapply refs_resolve_lookup.
Qed.

(** Replacing a campground by one with the same id and no new reference
    keeps a well-formed store well-formed. *)
Lemma well_formed_replace_campground d id c c' :
  campgrounds d !! id = Some c ->
  c_id c' = c_id c ->
  (∀ r, r ∈ c_reviews c' -> r ∈ c_reviews c) ->
  well_formed d ->
  well_formed {| campgrounds := <[id := c']> (campgrounds d);
                 reviews := reviews d |}.
Proof.
  intros Hid Hsame Hsub ([Hc Hr] & Hrefs & Hown). split_and!.
  - split; [|done]. apply map_Forall_insert_2; [|done].
    rewrite Hsame. by apply (Hc id c).
  - apply refs_resolve_alt. cbn [campgrounds reviews]. intros k x r [[<- <-]|[Hne Hk]]%lookup_insert_Some Hx.
    + eapply refs_resolve_lookup; eauto.
    + eapply refs_resolve_lookup; eauto.
  - apply single_owner_alt. cbn [campgrounds reviews].
    intros k1 k2 c1 c2 r [[<- <-]|[Hn1 H1]]%lookup_insert_Some
           [[<- <-]|[Hn2 H2]]%lookup_insert_Some Hne Hx; simpl in *.
    + done.
    + eapply (single_owner_lookup d id k2); eauto.
    + intros Hin. eapply (single_owner_lookup d k1 id); eauto.
    + eapply (single_owner_lookup d k1 k2); eauto.
Qed.

(** Storing a campground without reviews under its own id keeps a
    well-formed store well-formed. *)
Lemma well_formed_insert_empty d c :
  c_reviews c = [] ->
  well_formed d ->
  well_formed {| campgrounds := <[c_id c := c]> (campgrounds d);
                 reviews := reviews d |}.
Proof.
  intros Hnil ([Hc Hr] & Hrefs & Hown). split_and!.
  - split; [|done]. by apply map_Forall_insert_2.
  - apply refs_resolve_alt. cbn [campgrounds reviews]. intros k x r [[<- <-]|[Hne Hk]]%lookup_insert_Some Hx.
    + rewrite Hnil in Hx. by apply elem_of_nil in Hx.
    + eapply refs_resolve_lookup; eauto.
  - apply single_owner_alt. cbn [campgrounds reviews].
    intros k1 k2 c1 c2 r [[<- <-]|[Hn1 H1]]%lookup_insert_Some
           [[<- <-]|[Hn2 H2]]%lookup_insert_Some Hne Hx; simpl in *.
    + done.
    + rewrite Hnil in Hx. by apply elem_of_nil in Hx.
    + rewrite Hnil. apply not_elem_of_nil.
    + eapply (single_owner_lookup d k1 k2); eauto.
Qed.

(** Appending to a campground's list a stored review that no campground
    lists keeps a well-formed store well-formed. *)
Lemma well_formed_push_review d id c rid :
  campgrounds d !! id = Some c ->
  is_Some (reviews d !! rid) ->
  (∀ k c2, campgrounds d !! k = Some c2 -> rid ∉ c_reviews c2) ->
  well_formed d ->
  well_formed {| campgrounds :=
                   <[c_id c := {| c_id := c_id c; c_fields := c_fields c;
                                  c_reviews := (c_reviews c ++ [rid])%list |}]>
                     (campgrounds d);
                 reviews := reviews d |}.
Proof.
  intros Hid Hrid Hfree Hwf.
  assert (c_id c = id) as Hcid by (destruct Hwf as ([Hc _] & _); by apply (Hc id c)).
  rewrite Hcid. destruct Hwf as ([Hc Hr] & Hrefs & Hown). split_and!.
  - split; [|done]. by apply map_Forall_insert_2.
  - apply refs_resolve_alt. cbn [campgrounds reviews]. intros k x r [[<- <-]|[Hne Hk]]%lookup_insert_Some Hx;
      simpl in *.
    + apply elem_of_app in Hx as [Hx|Hx%list_elem_of_singleton].
      * eapply refs_resolve_lookup; eauto.
      * by subst.
    + eapply refs_resolve_lookup; eauto.
  - apply single_owner_alt. cbn [campgrounds reviews].
    intros k1 k2 c1 c2 r [[<- <-]|[Hn1 H1]]%lookup_insert_Some
           [[<- <-]|[Hn2 H2]]%lookup_insert_Some Hne Hx; simpl in *.
    + done.
    + apply elem_of_app in Hx as [Hx|Hx%list_elem_of_singleton].
      * eapply (single_owner_lookup d id k2); eauto.
      * subst. by eapply Hfree.
    + intros [Hin|Hin%list_elem_of_singleton]%elem_of_app.
      * eapply (single_owner_lookup d k1 id); eauto.
      * subst. by eapply Hfree.
    + eapply (single_owner_lookup d k1 k2); eauto.
Qed.

Lemma fresh_id_unlisted d k c :
  refs_resolve d -> campgrounds d !! k = Some c -> new_id d ∉ c_reviews c.
Proof.
  intros Hrefs Hk Hin.
  destruct (refs_resolve_lookup d k c (new_id d) Hrefs Hk Hin) as [x Hx].
  by rewrite new_id_fresh_review in Hx.
Qed.

(** ** Requests that keep the store well-formed *)

Lemma keeps_wf_create req : keeps well_formed (CampgroundRoutes.create req).
Proof.
  intros w Hw. unfold CampgroundRoutes.create, Campground.new, Campground.save, bind.
  match goal with |- context [store_op ?f w] =>
    destruct (store_op_cases f w) as [-> | ->] end; [done|].
  cbn [fst snd db]. by apply (well_formed_insert_empty (db w) (mkCampground _ _ _)).
Qed.

Lemma keeps_wf_update req : keeps well_formed (CampgroundRoutes.update req).
Proof.
  apply keeps_bind; [|intros [c|]; [apply keeps_ret|apply keeps_throw]].
  apply keeps_store_op. intros d Hd.
  destruct (campgrounds d !! param "id" req) as [c|] eqn:Hc; [|done].
  by apply (well_formed_replace_campground d _ c).
Qed.

Lemma keeps_wf_add_review req : keeps well_formed (ReviewRoutes.add_review req).
Proof.
  intros w Hw.
  unfold ReviewRoutes.add_review, Campground.findById, Review.new, Review.save,
    Campground.save, bind.
  match goal with |- context [store_op ?f w] =>
    destruct (store_op_cases f w) as [-> | ->] end; [done|].
  cbn [fst snd db].
  destruct (campgrounds (db w) !! param "id" req) as [c|] eqn:Hc; [|done].
  match goal with |- context [store_op ?f ?w1] =>
    destruct (store_op_cases f w1) as [-> | ->] end; [done|].
  cbn [fst snd db faults].
  pose proof (well_formed_insert_review (db w)
                {| r_id := new_id (db w);
                   r_fields := default ∅ (b_review (body req)) |} Hw) as Hw1.
  cbn [r_id] in Hw1.
  match goal with |- context [store_op ?f ?w1] =>
    destruct (store_op_cases f w1) as [-> | ->] end; [done|].
  cbn [fst snd db c_id campgrounds reviews].
  apply (well_formed_push_review
           {| campgrounds := campgrounds (db w);
              reviews := <[new_id (db w) :=
                             {| r_id := new_id (db w);
                                r_fields := default ∅ (b_review (body req)) |}]>
                           (reviews (db w)) |} (param "id" req) c (new_id (db w)));
    cbn [campgrounds reviews]; [done| | |done].
  - rewrite lookup_insert_eq. by eexists.
  - intros k c2 Hk. eapply fresh_id_unlisted; [|done]. apply Hw.
Qed.

Lemma keeps_wf_review_create req : keeps well_formed (ReviewRoutes.create req).
Proof.
  apply keeps_bind; [apply keeps_wf_add_review|]. intros c.
  apply keeps_bind; [|intros; apply keeps_ret].
  unfold req_flash. destruct (has_flash req); [apply keeps_ret|apply keeps_throw].
Qed.

Lemma keeps_wf_review_create_app req :
  keeps well_formed (ReviewRoutes.create_app req).
Proof.
  apply keeps_bind; [apply keeps_wf_add_review|]. intros c. apply keeps_ret.
Qed.

#[local] Hint Resolve keeps_wf_create keeps_wf_update keeps_wf_review_create
  keeps_wf_review_create_app : keeps.

(** X5.  No request other than a [DELETE] can break the store: if every
    record is stored under its id, every listed review exists and no
    review is listed by two campgrounds, the same holds after any request
    whose method is not [DELETE], under any fault schedule. *)
Theorem non_delete_requests_keep_well_formed v cs rs h w :
  method (prepared (application v cs rs) h) ≠ DELETE ->
  well_formed (db w) ->
  well_formed (db (handle (application v cs rs) h w).2).
Proof.
  intros Hm. apply handle_keeps.
  destruct (method (prepared (application v cs rs) h)); try done;
    destruct v; per_stage; intros; eauto with keeps.
Qed.

Lemma sample_store_well_formed : well_formed Sample.store.
Proof.
  split_and!.
  - split; apply (bool_decide_unpack _); vm_compute; exact I.
  - apply sample_store_refs_resolve.
  - apply sample_store_single_owner.
Qed.

Lemma get_requests_read_only_witness :
  db (handle (application Monolith Sample.campgroundSchema Sample.reviewSchema)
        (request GET ["campgrounds"; "c1"] no_body)
        {| db := Sample.store; faults := [false; true] |}).2 = Sample.store.
Proof.
  apply (get_requests_read_only Monolith Sample.campgroundSchema Sample.reviewSchema
           (request GET ["campgrounds"; "c1"] no_body)
           {| db := Sample.store; faults := [false; true] |}).
  left. reflexivity.
Defined.

Lemma every_request_keeps_ids_witness :
  ids_match
    (db (handle (application Routed Sample.campgroundSchema Sample.reviewSchema)
           (request POST ["campgrounds"; "c1"; "reviews"] Sample.review_body)
           (healthy Sample.store)).2).
Proof.
  apply (every_request_keeps_ids Routed). apply sample_store_well_formed.
Defined.

Lemma non_delete_requests_keep_well_formed_witness :
  well_formed
    (db (handle (application Monolith Sample.campgroundSchema Sample.reviewSchema)
           (request POST ["campgrounds"; "c1"; "reviews"] Sample.review_body)
           (healthy Sample.store)).2).
Proof.
  apply (non_delete_requests_keep_well_formed Monolith).
  - vm_compute. discriminate.
  - apply sample_store_well_formed.
Defined.

(** ** Deleting a review, whatever fails *)

Lemma run_stages_keeps_at P ss req w :
  Forall (fun s => keeps P (stage_handler s req)) ss ->
  P (db w) -> P (db (run_stages ss req w).2).
Proof.
  intros Hss. revert w. induction Hss as [|s ss Hs _ IH]; intros w Hw; [done|].
  specialize (Hs w Hw).
  destruct s as [h|h]; simpl in *;
    destruct (h req w) as [[[r| |e]|e] w']; simpl in *; auto.
Qed.

Lemma dispatch_keeps_at P rs req w :
  Forall (fun r => ∀ ps,
            match_method (r_method r) (method req) = true ->
            match_path (r_path r) (path req) = Some ps ->
            Forall (fun s => keeps P (stage_handler s (with_params ps req)))
                   (r_stages r)) rs ->
  P (db w) -> P (db (dispatch rs req w).2).
Proof.
  intros Hrs. revert w. induction Hrs as [|r rs Hr _ IH]; intros w Hw; [done|].
  simpl. destruct (match_method _ _) eqn:Hm; [|by apply IH].
  destruct (match_path _ _) as [ps|] eqn:Hp; [|by apply IH].
  pose proof (run_stages_keeps_at P (r_stages r) (with_params ps req) w
                (Hr ps eq_refl eq_refl) Hw) as Hrun.
  destruct (run_stages _ _ _) as [[res| |e] w']; simpl in *; auto.
Qed.

Lemma keeps_refs_destroy_review req :
  keeps (fun d => refs_resolve d
                  ∧ only_listed_by (param "id" req) (param "reviewId" req) d)
        (ReviewRoutes.destroy req).
Proof.
  set (id := param "id" req). set (rid := param "reviewId" req).
  assert (keeps (fun d => refs_resolve d ∧ only_listed_by id rid d)
            (Campground.findByIdAndUpdate id (PullReview rid))) as Hpull.
  { apply keeps_store_op. intros d [Hrefs Honly].
    destruct (campgrounds d !! id) as [c|] eqn:Hc; [|done]. split.
    - apply refs_resolve_alt. cbn [snd campgrounds reviews].
      intros k x r [[<- <-]|[Hne Hk]]%lookup_insert_Some Hx.
      + apply list_elem_of_filter in Hx as [_ Hx].
        eapply refs_resolve_lookup; eauto.
      + eapply refs_resolve_lookup; eauto.
    - apply only_listed_by_alt. cbn [snd campgrounds reviews].
      intros k x [[<- <-]|[Hne Hk]]%lookup_insert_Some Hkid; [done|].
      eapply only_listed_by_alt; eauto. }
  intros w [Hrefs Honly].
  unfold ReviewRoutes.destroy, bind. fold id rid.
  pose proof (Hpull w (conj Hrefs Honly)) as H1.
  destruct (Campground.findByIdAndUpdate id (PullReview rid) w) as [[c|e] w1] eqn:Hup;
    [|done].
  cbn [snd] in H1. destruct H1 as [Hrefs1 Honly1].
  assert (∀ k c1, campgrounds (db w1) !! k = Some c1 -> rid ∉ c_reviews c1) as Hfree.
  { intros k c1 Hk. destruct (decide (k = id)) as [->|Hne].
    - unfold Campground.findByIdAndUpdate in Hup.
      destruct (store_op_cases
                  (fun d => match campgrounds d !! id with
                            | Some c0 =>
                                (Some c0,
                                 {| campgrounds :=
                                      <[id := apply_update (PullReview rid) c0]>
                                        (campgrounds d);
                                    reviews := reviews d |})
                            | None => (None, d)
                            end) w) as [Hs|Hs];
        rewrite Hs in Hup; [done|].
      injection Hup as _ <-. cbn [db] in Hk.
      destruct (campgrounds (db w) !! id) as [c0|] eqn:Hc0; cbn [snd campgrounds] in Hk.
      + rewrite lookup_insert_eq in Hk. injection Hk as <-. apply pull_not_elem.
      + congruence.
    - eapply only_listed_by_alt; eauto. }
  unfold Review.findByIdAndDelete.
  match goal with |- context [store_op ?f w1] =>
    destruct (store_op_cases f w1) as [-> | ->] end; [done|].
  cbn [fst snd db campgrounds reviews ret]. split.
  - apply refs_resolve_alt. cbn [campgrounds reviews]. intros k x r Hk Hx.
    rewrite lookup_delete_ne.
    + eapply refs_resolve_lookup; eauto.
    + intros <-. by eapply Hfree.
  - done.
Qed.

(** X6.  If every listed review exists and no campground other than [id]
    lists [reviewId], then after [DELETE /campgrounds/id/reviews/reviewId]
    every listed review still exists, whichever store operation fails:
    the reference is pulled before the record is deleted. *)
Theorem delete_review_keeps_references v cs rs id reviewId b w :
  refs_resolve (db w) ->
  only_listed_by id reviewId (db w) ->
  refs_resolve
    (db (handle (application v cs rs)
           (request DELETE ["campgrounds"; id; "reviews"; reviewId] b) w).2).
Proof.
  intros Hrefs Honly.
  cut (refs_resolve
         (db (handle (application v cs rs)
                (request DELETE ["campgrounds"; id; "reviews"; reviewId] b) w).2)
       ∧ only_listed_by id reviewId
           (db (handle (application v cs rs)
                  (request DELETE ["campgrounds"; id; "reviews"; reviewId] b) w).2));
    [by intros [? _]|].
  rewrite handle_parsed by reflexivity. rewrite settle_world, prepared_request.
  apply (dispatch_keeps_at (fun d => refs_resolve d ∧ only_listed_by id reviewId d));
    [|done].
  destruct v;
    cbv [routes application single_app router_app single_app_routes
         router_app_stack mount prefixed campgrounds_router reviews_router route
         catch_all fmap list_fmap option_fmap option_map app];
    repeat (apply Forall_cons; split;
            [intros ps Hm Hp; cbn [r_method r_path r_stages method path] in *;
             first [ discriminate Hm | discriminate Hp | idtac ] |]);
    try apply Forall_nil.
  all: try exact I.
  all: injection Hp as <-.
  all: repeat (apply Forall_cons; split; [|try apply Forall_nil]).
  all: try exact I.
  all: try (intros w0 Hw0; exact Hw0).
  all: cbn [stage_handler catchAsync]; apply keeps_catch;
    [|intros; apply keeps_ret].
  all: match goal with
       | |- keeps _ (ReviewRoutes.destroy ?r) =>
           exact (keeps_refs_destroy_review r)
       end.
Qed.

Lemma delete_review_keeps_references_witness :
  refs_resolve
    (db (handle (application Routed Sample.campgroundSchema Sample.reviewSchema)
           (request DELETE ["campgrounds"; "c1"; "reviews"; "r1"] no_body)
           {| db := Sample.store; faults := [false; true] |}).2).
Proof.
  apply (delete_review_keeps_references Routed).
  - apply sample_store_refs_resolve.
  - apply (bool_decide_unpack _). vm_compute. exact I.
Defined.

(** ** The form, the list and the detail page *)

(** X7.  [GET /campgrounds/new] is always answered with the form, by the
    route declared before [/:id]: the store is not consulted, even if a
    campground had the id [new]. *)
Theorem new_form_takes_precedence v cs rs b w :
  handle (application v cs rs) (request GET ["campgrounds"; "new"] b) w
  = (Responded (Render 200 "campgrounds/new" NoLocals), w).
Proof.
  walk v.
  all: route_hit ltac:(reflexivity).
  all: reflexivity.
Qed.

Lemma run_async_sent fn ss req w r w' :
  fn req w = (Ok (Sent r), w') ->
  run_stages (Async fn :: ss) req w = (Done (Responded r), w').
Proof. intros H. simpl. by rewrite H. Qed.

(** X8.  On a healthy store, [GET /campgrounds] renders the list view
    with exactly the stored campgrounds, each once, and leaves the store
    as it was. *)
Theorem index_lists_every_campground cs rs b d :
  ∃ listed,
    handle (application Routed cs rs) (request GET ["campgrounds"] b) (healthy d)
      = (Responded (Render 200 "campgrounds/index" (LCampgrounds listed)), healthy d)
    ∧ handle (application Monolith cs rs) (request GET ["campgrounds"] b) (healthy d)
      = (Responded (Render 200 "campgrounds/index" (LCampgrounds listed)), healthy d)
    ∧ (∀ c, c ∈ listed ↔ ∃ k, campgrounds d !! k = Some c)
    ∧ length listed = size (campgrounds d).
Proof.
  exists (snd <$> map_to_list (campgrounds d)).
  assert (∀ req, CampgroundRoutes.index req (healthy d)
          = (Ok (Sent (Render 200 "campgrounds/index"
                         (LCampgrounds (snd <$> map_to_list (campgrounds d))))),
             healthy d)) as Hindex.
  { intros req. unfold CampgroundRoutes.index, Campground.find, bind.
    by rewrite store_op_healthy. }
  split_and!.
  - expose_stack. repeat route_miss.
    route_hit ltac:(apply run_catchAsync_sent, Hindex). reflexivity.
  - expose_stack. repeat route_miss.
    route_hit ltac:(apply run_async_sent, Hindex).
    reflexivity.
  - intros c. rewrite list_elem_of_fmap. split.
    + intros [[k c'] [-> Hin%elem_of_map_to_list]]. by exists k.
    + intros [k Hk]. exists (k, c). split; [done|]. by apply elem_of_map_to_list.
  - by rewrite length_fmap, length_map_to_list.
Qed.

Lemma populate_resolved (m : gmap Id ReviewDoc) (l : list Id) :
  Forall (fun r => is_Some (m !! r)) l ->
  Forall2 (fun r review => m !! r = Some review) l (omap (fun r => m !! r) l).
Proof.
  induction 1 as [|r l [review Hr] _ IH]; [constructor|].
  simpl. rewrite Hr. by constructor.
Qed.

(** X9.  On a healthy store, the detail page of an existing campground
    is rendered with the campground and with the stored reviews its list
    names, in the order of the list; when every reference resolves there
    is one review per reference.  The store is left as it was. *)
Theorem show_populates_reviews v cs rs id b d c :
  id ≠ "new" ->
  campgrounds d !! id = Some c ->
  ∃ populated,
    handle (application v cs rs) (request GET ["campgrounds"; id] b) (healthy d)
      = (Responded (Render 200 "campgrounds/show" (LShow (Some (c, populated)))),
         healthy d)
    ∧ populated = omap (fun r => reviews d !! r) (c_reviews c)
    ∧ (refs_resolve d ->
       Forall2 (fun r review => reviews d !! r = Some review) (c_reviews c) populated).
Proof.
  intros Hnew Hc. eexists. split_and!; [|reflexivity|].
  - walk v.
    all: rewrite dispatch_miss_path by (by apply new_form_miss).
    all: repeat route_miss.
    all: route_hit ltac:(apply run_catchAsync_sent;
                         unfold CampgroundRoutes.show, Campground.findById_populate, bind;
                         rewrite store_op_healthy; cbn [fst snd param params with_params lookup_param];
                         change (String.eqb "id" "id") with true; cbv iota;
                         rewrite Hc; reflexivity).
    all: reflexivity.
  - intros Hrefs. apply populate_resolved.
    specialize (Hrefs id c Hc). exact Hrefs.
Qed.

Lemma show_populates_reviews_witness :
  ∃ populated,
    handle (application Routed Sample.campgroundSchema Sample.reviewSchema)
      (request GET ["campgrounds"; "c1"] no_body) (healthy Sample.store)
      = (Responded (Render 200 "campgrounds/show"
           (LShow (Some ({| c_id := "c1"; c_fields := Sample.pine_ridge;
                            c_reviews := ["r1"; "r2"] |}, populated)))),
         healthy Sample.store)
    ∧ Forall2 (fun r review => reviews Sample.store !! r = Some review)
        ["r1"; "r2"] populated.
Proof.
  destruct (show_populates_reviews Routed Sample.campgroundSchema
              Sample.reviewSchema "c1" no_body Sample.store
              {| c_id := "c1"; c_fields := Sample.pine_ridge;
                 c_reviews := ["r1"; "r2"] |})
    as (populated & Hrun & _ & Hall).
  - by intros [=].
  - reflexivity.
  - exists populated. split; [exact Hrun|]. exact (Hall sample_store_refs_resolve).
Defined.

(** ** Updating a campground *)

Lemma update_healthy req d c :
  campgrounds d !! param "id" req = Some c ->
  CampgroundRoutes.update req (healthy d) =
  (Ok (Sent (Redirect ["campgrounds"; c_id c])),
   healthy {| campgrounds :=
                <[param "id" req :=
                    apply_update (SetFields (default ∅ (b_campground (body req)))) c]>
                  (campgrounds d);
              reviews := reviews d |}).
Proof.
  intros Hc. unfold CampgroundRoutes.update, Campground.findByIdAndUpdate, bind.
  rewrite store_op_healthy. by rewrite Hc.
Qed.

(** X10.  On a healthy store, a valid [PUT /campgrounds/:id] of an
    existing campground redirects to its page and replaces the record by
    one with the same id and the same review list, whose fields are the
    payload's where the payload has the key and the old ones elsewhere.
    No other record changes. *)
Theorem update_merges_payload v cs rs id b d c :
  cs b = None ->
  campgrounds d !! id = Some c ->
  ∃ c',
    handle (application v cs rs) (request PUT ["campgrounds"; id] b) (healthy d)
      = (Responded (Redirect ["campgrounds"; c_id c]),
         healthy {| campgrounds := <[id := c']> (campgrounds d);
                    reviews := reviews d |})
    ∧ c_id c' = c_id c
    ∧ c_reviews c' = c_reviews c
    ∧ (∀ key x, default ∅ (b_campground b) !! key = Some x ->
                c_fields c' !! key = Some x)
    ∧ (∀ key, default ∅ (b_campground b) !! key = None ->
              c_fields c' !! key = c_fields c !! key).
Proof.
  intros Hb Hc.
  exists (apply_update (SetFields (default ∅ (b_campground b))) c). split_and!.
  - walk v.
    all: route_hit ltac:(etrans; [apply run_validate_pass; exact Hb|];
                         apply run_catchAsync_sent, update_healthy; exact Hc).
    all: reflexivity.
  - done.
  - done.
  - intros key x Hx. simpl. by apply lookup_union_Some_l.
  - intros key Hx. simpl. by apply lookup_union_r.
Qed.

Lemma update_merges_payload_witness :
  ∃ c',
    handle (application Routed Sample.campgroundSchema Sample.reviewSchema)
      (request PUT ["campgrounds"; "c2"] Sample.campground_body)
      (healthy Sample.store)
      = (Responded (Redirect ["campgrounds"; "c2"]),
         healthy {| campgrounds := <["c2" := c']> (campgrounds Sample.store);
                    reviews := reviews Sample.store |})
    ∧ c_reviews c' = ["r3"]
    ∧ c_fields c' !! "title" = Some "Pine Ridge".
Proof.
  destruct (update_merges_payload Routed Sample.campgroundSchema
              Sample.reviewSchema "c2" Sample.campground_body Sample.store
              {| c_id := "c2"; c_fields := Sample.pine_ridge; c_reviews := ["r3"] |}
              eq_refl eq_refl)
    as (c' & Hrun & _ & Hrev & Hnew & _).
  exists c'. split_and!; [exact Hrun | exact Hrev |].
  apply Hnew. reflexivity.
Defined.

(** ** Creating a review *)

Lemma handle_create_review_monolith cs rs id b d c :
  rs b = None ->
  campgrounds d !! id = Some c ->
  handle (application Monolith cs rs)
    (request POST ["campgrounds"; id; "reviews"] b) (healthy d)
  = (Responded (Redirect ["campgrounds"; c_id c]),
     healthy {| campgrounds :=
                  <[c_id c := {| c_id := c_id c; c_fields := c_fields c;
                                 c_reviews := (c_reviews c ++ [new_id d])%list |}]>
                    (campgrounds d);
                reviews :=
                  <[new_id d := {| r_id := new_id d;
                                   r_fields := default ∅ (b_review b) |}]>
                    (reviews d) |}).
Proof.
  intros Hb Hc. expose_stack. repeat route_miss.
  route_hit ltac:(etrans; [apply run_validate_pass; exact Hb|];
                  apply run_catchAsync_sent;
                  unfold ReviewRoutes.create_app, bind;
                  erewrite add_review_healthy by exact Hc; reflexivity).
  reflexivity.
Qed.

(** X11.  In the application that declares the route itself, a valid
    review posted to an existing campground is stored under a fresh id,
    that id is appended to the campground's list, which gets one longer,
    and the response redirects to the campground's page. *)
Theorem review_create_appends_reference cs rs id b d c :
  rs b = None ->
  campgrounds d !! id = Some c ->
  ∃ review c' d',
    handle (application Monolith cs rs)
      (request POST ["campgrounds"; id; "reviews"] b) (healthy d)
      = (Responded (Redirect ["campgrounds"; c_id c]), healthy d')
    ∧ reviews d !! r_id review = None
    ∧ r_fields review = default ∅ (b_review b)
    ∧ reviews d' = <[r_id review := review]> (reviews d)
    ∧ campgrounds d' = <[c_id c := c']> (campgrounds d)
    ∧ c_id c' = c_id c ∧ c_fields c' = c_fields c
    ∧ c_reviews c' = (c_reviews c ++ [r_id review])%list
    ∧ length (c_reviews c') = S (length (c_reviews c)).
Proof.
  intros Hb Hc.
  exists {| r_id := new_id d; r_fields := default ∅ (b_review b) |}.
  eexists. eexists. split; [by apply handle_create_review_monolith|].
  cbn [campgrounds reviews r_id r_fields c_id c_fields c_reviews].
  split_and!; try done.
  - apply new_id_fresh_review.
  - cbn [c_reviews]. rewrite length_app, Nat.add_comm. reflexivity.
Qed.

Lemma review_create_appends_reference_witness :
  ∃ review c' d',
    handle (application Monolith Sample.campgroundSchema Sample.reviewSchema)
      (request POST ["campgrounds"; "c2"; "reviews"] Sample.review_body)
      (healthy Sample.store)
      = (Responded (Redirect ["campgrounds"; "c2"]), healthy d')
    ∧ campgrounds d' = <["c2" := c']> (campgrounds Sample.store)
    ∧ c_reviews c' = ["r3"; r_id review]
    ∧ length (c_reviews c') = 2%nat.
Proof.
  destruct (review_create_appends_reference Sample.campgroundSchema
              Sample.reviewSchema "c2" Sample.review_body Sample.store
              {| c_id := "c2"; c_fields := Sample.pine_ridge; c_reviews := ["r3"] |}
              eq_refl eq_refl)
    as (review & c' & d' & Hrun & _ & _ & _ & Hd' & _ & _ & Hl & Hlen).
  exists review, c', d'. split_and!; [exact Hrun | exact Hd' | exact Hl | exact Hlen].
Defined.

Lemma add_review_unknown req d :
  campgrounds d !! param "id" req = None ->
  ReviewRoutes.add_review req (healthy d) =
  (Raise (TypeError "Cannot read properties of null (reading 'reviews')"),
   healthy d).
Proof.
  intros Hc. unfold ReviewRoutes.add_review, Campground.findById, Review.new, bind.
  rewrite store_op_healthy. cbn [fst snd]. by rewrite Hc.
Qed.

(** X12.  A valid review posted to a campground id that no record has is
    answered with the error page, status 500: [campground.reviews] is read
    on [null].  Nothing is stored. *)
Theorem review_create_unknown_campground v cs rs id b d :
  rs b = None ->
  campgrounds d !! id = None ->
  handle (application v cs rs)
    (request POST ["campgrounds"; id; "reviews"] b) (healthy d)
  = (Responded (Render 500 "error"
       (LErr (TypeError "Cannot read properties of null (reading 'reviews')"))),
     healthy d).
Proof.
  intros Hb Hc. walk v.
  all: route_hit ltac:(etrans; [apply run_validate_pass; exact Hb|];
                       apply run_catchAsync_raise;
                       try unfold ReviewRoutes.create;
                       try unfold ReviewRoutes.create_app;
                       unfold bind; erewrite add_review_unknown by exact Hc;
                       reflexivity).
  all: reflexivity.
Qed.

Lemma review_create_unknown_campground_witness :
  handle (application Routed Sample.campgroundSchema Sample.reviewSchema)
    (request POST ["campgrounds"; "c9"; "reviews"] Sample.review_body)
    (healthy Sample.store)
  = (Responded (Render 500 "error"
       (LErr (TypeError "Cannot read properties of null (reading 'reviews')"))),
     healthy Sample.store).
Proof.
  exact (review_create_unknown_campground Routed Sample.campgroundSchema
           Sample.reviewSchema "c9" Sample.review_body Sample.store eq_refl eq_refl).
Defined.

(** ** Writes that fail half-way *)

Lemma add_review_second_save_fails req d c fs :
  campgrounds d !! param "id" req = Some c ->
  ReviewRoutes.add_review req {| db := d; faults := false :: false :: true :: fs |} =
  (Raise StoreError,
   {| db := {| campgrounds := campgrounds d;
               reviews := <[new_id d := {| r_id := new_id d;
                                           r_fields := default ∅ (b_review (body req)) |}]>
                            (reviews d) |};
      faults := fs |}).
Proof.
  intros Hc.
  unfold ReviewRoutes.add_review, Campground.findById, Review.new, Review.save,
    Campground.save, bind, store_op.
  cbn [db faults]. by rewrite Hc.
Qed.

(** X13.  When a valid review is posted to an existing campground and
    the campground's save is the operation that fails, the response is the
    error page with status 500, the review record stays stored and no
    campground lists it: the campground collection is as it was. *)
Theorem review_create_failed_campground_save v cs rs id b d c fs :
  rs b = None ->
  campgrounds d !! id = Some c ->
  ∃ review d',
    handle (application v cs rs)
      (request POST ["campgrounds"; id; "reviews"] b)
      {| db := d; faults := false :: false :: true :: fs |}
      = (Responded (Render 500 "error" (LErr StoreError)),
         {| db := d'; faults := fs |})
    ∧ campgrounds d' = campgrounds d
    ∧ reviews d !! r_id review = None
    ∧ reviews d' = <[r_id review := review]> (reviews d)
    ∧ (refs_resolve d ->
       ∀ k c2, campgrounds d' !! k = Some c2 -> r_id review ∉ c_reviews c2).
Proof.
  intros Hb Hc.
  exists {| r_id := new_id d; r_fields := default ∅ (b_review b) |}.
  eexists. split.
  { walk v.
    all: route_hit ltac:(etrans; [apply run_validate_pass; exact Hb|];
                         apply run_catchAsync_raise;
                         try unfold ReviewRoutes.create;
                         try unfold ReviewRoutes.create_app;
                         unfold bind;
                         erewrite add_review_second_save_fails by exact Hc;
                         reflexivity).
    all: reflexivity. }
  cbn [campgrounds reviews r_id]. split_and!; try done.
  - apply new_id_fresh_review.
  - intros Hrefs k c2 Hk. by eapply fresh_id_unlisted.
Qed.

Lemma review_create_failed_campground_save_witness :
  ∃ review d',
    handle (application Monolith Sample.campgroundSchema Sample.reviewSchema)
      (request POST ["campgrounds"; "c1"; "reviews"] Sample.review_body)
      {| db := Sample.store; faults := [false; false; true] |}
      = (Responded (Render 500 "error" (LErr StoreError)),
         {| db := d'; faults := [] |})
    ∧ campgrounds d' = campgrounds Sample.store
    ∧ reviews d' = <[r_id review := review]> (reviews Sample.store)
    ∧ ∀ k c2, campgrounds d' !! k = Some c2 -> r_id review ∉ c_reviews c2.
Proof.
  destruct (review_create_failed_campground_save Monolith Sample.campgroundSchema
              Sample.reviewSchema "c1" Sample.review_body Sample.store
              {| c_id := "c1"; c_fields := Sample.pine_ridge;
                 c_reviews := ["r1"; "r2"] |} [] eq_refl eq_refl)
    as (review & d' & Hrun & Hc & _ & Hr & Horphan).
  exists review, d'. split_and!; [exact Hrun | exact Hc | exact Hr |].
  exact (Horphan sample_store_refs_resolve).
Defined.

Lemma destroy_review_delete_fails req d c fs :
  campgrounds d !! param "id" req = Some c ->
  ReviewRoutes.destroy req {| db := d; faults := false :: true :: fs |} =
  (Raise StoreError,
   {| db := {| campgrounds :=
                 <[param "id" req := apply_update (PullReview (param "reviewId" req)) c]>
                   (campgrounds d);
               reviews := reviews d |};
      faults := fs |}).
Proof.
  intros Hc.
  unfold ReviewRoutes.destroy, Campground.findByIdAndUpdate,
    Review.findByIdAndDelete, bind, store_op.
  cbn [db faults]. by rewrite Hc.
Qed.

(** X14.  When a review is deleted through an existing campground and
    the pull succeeds but the delete of the record fails, the response is
    the error page with status 500; the id is gone from the campground's
    list and the review record is still stored. *)
Theorem review_delete_failed_record_delete v cs rs id reviewId b d c fs :
  campgrounds d !! id = Some c ->
  ∃ c' d',
    handle (application v cs rs)
      (request DELETE ["campgrounds"; id; "reviews"; reviewId] b)
      {| db := d; faults := false :: true :: fs |}
      = (Responded (Render 500 "error" (LErr StoreError)),
         {| db := d'; faults := fs |})
    ∧ campgrounds d' = <[id := c']> (campgrounds d)
    ∧ c_reviews c' = pull reviewId (c_reviews c)
    ∧ (reviewId ∉ c_reviews c')
    ∧ reviews d' = reviews d.
Proof.
  intros Hc. eexists. eexists. split.
  { walk v.
    all: route_hit ltac:(apply run_catchAsync_raise;
                         erewrite destroy_review_delete_fails by exact Hc;
                         reflexivity).
    all: reflexivity. }
  cbn [campgrounds reviews apply_update c_reviews]. split_and!; try done.
  apply pull_not_elem.
Qed.

Lemma review_delete_failed_record_delete_witness :
  ∃ c' d',
    handle (application Routed Sample.campgroundSchema Sample.reviewSchema)
      (request DELETE ["campgrounds"; "c1"; "reviews"; "r1"] no_body)
      {| db := Sample.store; faults := [false; true] |}
      = (Responded (Render 500 "error" (LErr StoreError)),
         {| db := d'; faults := [] |})
    ∧ campgrounds d' = <["c1" := c']> (campgrounds Sample.store)
    ∧ c_reviews c' = ["r2"]
    ∧ is_Some (reviews d' !! "r1").
Proof.
  destruct (review_delete_failed_record_delete Routed Sample.campgroundSchema
              Sample.reviewSchema "c1" "r1" no_body Sample.store
              {| c_id := "c1"; c_fields := Sample.pine_ridge;
                 c_reviews := ["r1"; "r2"] |} [] eq_refl)
    as (c' & d' & Hrun & Hc & Hl & _ & Hr).
  exists c', d'. split_and!; [exact Hrun | exact Hc | exact Hl |].
  rewrite Hr. by eexists.
Defined.

(** ** Requests in sequence *)

Lemma handle_create_healthy v cs rs b d :
  cs b = None ->
  handle (application v cs rs) (request POST ["campgrounds"] b) (healthy d)
  = (Responded (Redirect ["campgrounds"; new_id d]),
     healthy {| campgrounds :=
                  <[new_id d := {| c_id := new_id d;
                                   c_fields := default ∅ (b_campground b);
                                   c_reviews := [] |}]> (campgrounds d);
                reviews := reviews d |}).
Proof.
  intros Hb. walk v.
  all: route_hit ltac:(etrans; [apply run_validate_pass; exact Hb|];
                       apply run_catchAsync_sent, create_healthy).
  all: reflexivity.
Qed.

(** X15.  Posting the same valid campground twice stores two records
    with the same fields under two different ids; nothing is
    deduplicated. *)
Theorem create_twice_stores_two v cs rs b d :
  cs b = None ->
  ∃ c1 c2 d1 d2,
    handle (application v cs rs) (request POST ["campgrounds"] b) (healthy d)
      = (Responded (Redirect ["campgrounds"; c_id c1]), healthy d1)
    ∧ handle (application v cs rs) (request POST ["campgrounds"] b) (healthy d1)
      = (Responded (Redirect ["campgrounds"; c_id c2]), healthy d2)
    ∧ c_id c1 ≠ c_id c2
    ∧ c_fields c1 = c_fields c2
    ∧ campgrounds d2 !! c_id c1 = Some c1
    ∧ campgrounds d2 !! c_id c2 = Some c2
    ∧ size (campgrounds d2) = S (S (size (campgrounds d))).
Proof.
  intros Hb.
  set (c1 := {| c_id := new_id d; c_fields := default ∅ (b_campground b);
                c_reviews := [] |}).
  set (d1 := {| campgrounds := <[new_id d := c1]> (campgrounds d);
                reviews := reviews d |}).
  set (c2 := {| c_id := new_id d1; c_fields := default ∅ (b_campground b);
                c_reviews := [] |}).
  exists c1, c2, d1. eexists.
  assert (new_id d ≠ new_id d1) as Hne.
  { intros Heq. pose proof (new_id_fresh_campground d1) as Hfresh.
    rewrite <- Heq in Hfresh. subst d1. cbn [campgrounds] in Hfresh.
    by rewrite lookup_insert_eq in Hfresh. }
  split; [by apply handle_create_healthy|].
  split; [by apply handle_create_healthy|].
  cbn [campgrounds c_id c_fields]. split_and!; try done.
  - rewrite lookup_insert_ne by done. subst d1. cbn [campgrounds].
    apply lookup_insert_eq.
  - apply lookup_insert_eq.
  - rewrite map_size_insert_None by apply new_id_fresh_campground.
    subst d1. cbn [campgrounds].
    by rewrite map_size_insert_None by apply new_id_fresh_campground.
Qed.

Lemma create_twice_stores_two_witness :
  ∃ c1 c2 d1 d2,
    handle (application Routed Sample.campgroundSchema Sample.reviewSchema)
      (request POST ["campgrounds"] Sample.campground_body) (healthy Sample.store)
      = (Responded (Redirect ["campgrounds"; c_id c1]), healthy d1)
    ∧ handle (application Routed Sample.campgroundSchema Sample.reviewSchema)
        (request POST ["campgrounds"] Sample.campground_body) (healthy d1)
      = (Responded (Redirect ["campgrounds"; c_id c2]), healthy d2)
    ∧ c_id c1 ≠ c_id c2
    ∧ size (campgrounds d2) = 4%nat.
Proof.
  destruct (create_twice_stores_two Routed Sample.campgroundSchema
              Sample.reviewSchema Sample.campground_body Sample.store eq_refl)
    as (c1 & c2 & d1 & d2 & H1 & H2 & Hne & _ & _ & _ & Hsize).
  exists c1, c2, d1, d2. split_and!; [exact H1 | exact H2 | exact Hne | exact Hsize].
Defined.

Lemma pull_appended (rid : Id) (l : list Id) :
  rid ∉ l -> pull rid (l ++ [rid]) = l.
Proof.
  intros Hr. unfold pull. rewrite filter_app, filter_cons, filter_nil.
  rewrite decide_False by (intros H; by apply H).
  rewrite app_nil_r. by apply pull_absent.
Qed.

(** X16.  On a healthy, well-formed store, adding a review to a
    campground and then deleting that review through the same campground
    gives back the store as it was before the two requests. *)
Theorem review_create_then_delete_restores v cs rs id b b' d c :
  rs b = None ->
  campgrounds d !! id = Some c ->
  ids_match d ->
  refs_resolve d ->
  ∃ review d1,
    handle (application Monolith cs rs)
      (request POST ["campgrounds"; id; "reviews"] b) (healthy d)
      = (Responded (Redirect ["campgrounds"; id]), healthy d1)
    ∧ reviews d1 !! r_id review = Some review
    ∧ handle (application v cs rs)
        (request DELETE ["campgrounds"; id; "reviews"; r_id review] b') (healthy d1)
      = (Responded (Redirect ["campgrounds"; id]), healthy d).
Proof.
  intros Hb Hc [Hids _] Hrefs.
  assert (c_id c = id) as Hcid by by apply (Hids id c).
  exists {| r_id := new_id d; r_fields := default ∅ (b_review b) |}.
  eexists. split_and!.
  - rewrite (handle_create_review_monolith cs rs id b d c Hb Hc), Hcid. reflexivity.
  - cbn [reviews r_id]. apply lookup_insert_eq.
  - rewrite handle_destroy_review. cbn [campgrounds reviews r_id].
    rewrite lookup_insert_eq. f_equal. f_equal.
    rewrite insert_insert_eq, delete_insert_id by apply new_id_fresh_review.
    unfold apply_update. cbn [c_id c_fields c_reviews].
    rewrite pull_appended by (by eapply fresh_id_unlisted).
    replace {| c_id := id; c_fields := c_fields c; c_reviews := c_reviews c |}
      with c by (destruct c; simpl in *; by subst).
    rewrite insert_id by done. by destruct d.
Qed.

Lemma review_create_then_delete_restores_witness :
  ∃ review d1,
    handle (application Monolith Sample.campgroundSchema Sample.reviewSchema)
      (request POST ["campgrounds"; "c1"; "reviews"] Sample.review_body)
      (healthy Sample.store)
      = (Responded (Redirect ["campgrounds"; "c1"]), healthy d1)
    ∧ handle (application Routed Sample.campgroundSchema Sample.reviewSchema)
        (request DELETE ["campgrounds"; "c1"; "reviews"; r_id review] no_body)
        (healthy d1)
      = (Responded (Redirect ["campgrounds"; "c1"]), healthy Sample.store).
Proof.
  destruct (review_create_then_delete_restores Routed Sample.campgroundSchema
              Sample.reviewSchema "c1" Sample.review_body no_body Sample.store
              {| c_id := "c1"; c_fields := Sample.pine_ridge;
                 c_reviews := ["r1"; "r2"] |} eq_refl eq_refl
              (proj1 sample_store_well_formed) sample_store_refs_resolve)
    as (review & d1 & H1 & _ & H2).
  exists review, d1. split; [exact H1 | exact H2].
Defined.

(** ** Every request of the routed application is answered *)

Lemma run_stages_done ss req w r :
  (run_stages ss req w).1 = Done r ->
  (∃ resp, r = Responded resp) ∨ (∃ e, r = Hung e).
Proof.
  revert w. induction ss as [|s ss IH]; intros w; [done|].
  destruct s as [h|h]; simpl;
    destruct (h req w) as [[[resp| |e]|e] w']; simpl; try done; eauto;
    intros [= <-]; eauto.
Qed.

Lemma dispatch_done rs req w r :
  (dispatch rs req w).1 = Done r ->
  (∃ resp, r = Responded resp) ∨ (∃ e, r = Hung e).
Proof.
  revert w. induction rs as [|x rs IH]; intros w; [done|]. simpl.
  destruct (match_method _ _); [|by apply IH].
  destruct (match_path _ _) as [ps|]; [|by apply IH].
  pose proof (run_stages_done (r_stages x) (with_params ps req) w r) as Hrun.
  destruct (run_stages _ _ _) as [[res| |e] w']; simpl in *; [done| |done].
  by apply IH.
Qed.

Lemma dispatch_never_falls rs req w :
  (dispatch (rs ++ [catch_all]) req w).1 ≠ Fall.
Proof.
  revert w. induction rs as [|x rs IH]; intros w; [done|]. simpl.
  destruct (match_method _ _); [|by apply IH].
  destruct (match_path _ _) as [ps|]; [|by apply IH].
  destruct (run_stages _ _ _) as [[res| |e] w']; simpl; [done| |done].
  by apply IH.
Qed.

(** X1.  The application that mounts the routers answers every request,
    whatever the request and whichever store operations fail: with a
    page, a redirect or a router's answer to [OPTIONS], never with
    silence. *)
Theorem routed_always_responds cs rs h w :
  ∃ r, (handle (application Routed cs rs) h w).1 = Responded r.
Proof.
  unfold handle. cbv zeta.
  set (req := prepared (application Routed cs rs) h).
  destruct (middleware_error (application Routed cs rs) h) as [e0|];
    [rewrite (settle_error Routed); by eexists|].
  pose proof (dispatch_never_falls (router_app_stack cs rs) req w) as Hfall.
  pose proof (dispatch_sync (routes (application Routed cs rs)) req w) as Hhung.
  pose proof (dispatch_done (routes (application Routed cs rs)) req w) as Hdone.
  change (router_app_stack cs rs ++ [catch_all])%list
    with (routes (application Routed cs rs)) in Hfall.
  destruct (dispatch (routes (application Routed cs rs)) req w)
    as [[r| |e] w'] eqn:Hd; cbn [fst] in *.
  - destruct (Hdone r eq_refl) as [[resp ->]|[e ->]]; [by eexists|].
    by destruct (Hhung e eq_refl eq_refl).
  - done.
  - rewrite (settle_error Routed). by eexists.
Qed.

(** ** The [_method] override *)

Lemma run_stages_ext ss req req' w :
  Forall stage_ignores_query ss -> same_but_query req req' ->
  run_stages ss req w = run_stages ss req' w.
Proof.
  intros Hss Hsame. revert w. induction Hss as [|s ss Hs _ IH]; intros w; [done|].
  specialize (Hs req req' Hsame).
  destruct s as [h|h]; simpl in *; rewrite Hs;
    destruct (h req' w) as [[[r| |e]|e] w']; auto.
Qed.

Lemma dispatch_ext rs req req' w :
  Forall (fun r => Forall stage_ignores_query (r_stages r)) rs ->
  same_but_query req req' ->
  dispatch rs req w = dispatch rs req' w.
Proof.
  intros Hrs Hsame. revert w. induction Hrs as [|r rs Hr _ IH]; intros w; [done|].
  simpl. destruct Hsame as (Hm & Hp & Hb & Hps & Hf). rewrite <- Hm, <- Hp.
  destruct (match_method _ _); [|by apply IH].
  destruct (match_path _ _) as [ps|]; [|by apply IH].
  rewrite (run_stages_ext (r_stages r) (with_params ps req) (with_params ps req') w Hr)
    by (by split_and!).
  destruct (run_stages _ _ _) as [[res| |e] w']; auto.
Qed.

Lemma routes_ignore_query v cs rs :
  Forall (fun r => Forall stage_ignores_query (r_stages r))
    (routes (application v cs rs)).
Proof.
  destruct v;
    cbv [routes application single_app router_app single_app_routes
         router_app_stack mount prefixed campgrounds_router reviews_router route
         catch_all fmap list_fmap option_fmap option_map app r_method r_path
         r_stages];
    repeat (apply Forall_cons; split;
            [repeat (apply Forall_cons; split; [|]); try apply Forall_nil|]);
    try apply Forall_nil; try exact I.
  all: intros [m p b q ps f] [m' p' b' q' ps' f'] (Hm & Hp & Hb & Hps & Hf);
    simpl in Hm, Hp, Hb, Hps, Hf; subst; reflexivity.
Qed.

(** X17.  A form [POST] that carries [_method=M] in the query is handled
    exactly as a request of method [M]; on a request of any other method
    the parameter is ignored. *)
Theorem method_override_only_on_post v cs rs m0 m p b w :
  handle (application v cs rs)
    {| h_method := m0; h_path := p; h_body := b; h_query_method := Some m;
       h_parse_error := None |} w
  = handle (application v cs rs)
      (request (if bool_decide (m0 = POST) then m else m0) p b) w.
Proof.
  rewrite !handle_parsed by reflexivity. rewrite prepared_request.
  set (req := prepared _ _).
  assert (same_but_query req
            {| method := if bool_decide (m0 = POST) then m else m0; path := p;
               body := b; query_method := None; params := [];
               has_flash := false |}) as Hsame.
  { subst req. by destruct v, m0. }
  rewrite (dispatch_ext _ _ _ w (routes_ignore_query v cs rs) Hsame).
  destruct (dispatch _ _ w) as [[r| |e] w']; [done|done|].
  by rewrite !settle_error.
Qed.
